(** * GaLoreAdamWInRank: the rank-growing AdamW optimizer

    A shallow embedding of [galore_torch/adamw_inrank.py].

    Numbers.  The optimizer computes with tensors of floats.  The embedding
    keeps IEEE-754's special values (the two infinities and NaN), because the
    control flow of the rank-growth loop depends on them, and computes on
    finite values exactly, over the rationals: rounding and overflow are not
    modelled, and there is a single zero.

    Tensors.  Gradients, moment buffers and parameters are matrices (2-D
    tensors) given by their shape and their rows; tensors of another
    dimensionality are outside the embedding.

    Collaborators.  [torch.linalg.svdvals], the square root and the
    [GaLoreProjector] class are not part of the file: they are variables of
    the section that holds the step. *)

From Stdlib Require Import QArith Qpower Lqa.
From stdpp Require Import base option list functions gmap.

Local Open Scope nat_scope.

(** ** Extended rationals *)

Inductive fl : Type :=
| Fin (q : Q)
| PInf
| NInf
| NaN.

Definition fzero : fl := Fin 0.
Definition fone : fl := Fin 1.

Definition Qzerob (q : Q) : bool := Qeq_bool q 0.
Definition Qposb (q : Q) : bool := negb (Qle_bool q 0).
Definition Qltb (a b : Q) : bool := negb (Qle_bool b a).

Definition fneg (x : fl) : fl :=
  match x with
  | Fin q => Fin (- q)
  | PInf => NInf
  | NInf => PInf
  | NaN => NaN
  end.

Definition fadd (x y : fl) : fl :=
  match x, y with
  | NaN, _ | _, NaN => NaN
  | Fin a, Fin b => Fin (a + b)
  | PInf, NInf | NInf, PInf => NaN
  | PInf, _ | _, PInf => PInf
  | NInf, _ | _, NInf => NInf
  end.

Definition fsub (x y : fl) : fl := fadd x (fneg y).

(** The infinity that carries the sign of [q]; NaN when [q] is zero. *)
Definition inf_signed (pos : bool) (q : Q) : fl :=
  if Qzerob q then NaN
  else if Bool.eqb pos (Qposb q) then PInf else NInf.

Definition fmul (x y : fl) : fl :=
  match x, y with
  | NaN, _ | _, NaN => NaN
  | Fin a, Fin b => Fin (a * b)
  | Fin a, PInf | PInf, Fin a => inf_signed true a
  | Fin a, NInf | NInf, Fin a => inf_signed false a
  | PInf, PInf | NInf, NInf => PInf
  | PInf, NInf | NInf, PInf => NInf
  end.

(** Tensor division: a division by zero gives an infinity or NaN, it does
    not raise. *)
Definition fdiv (x y : fl) : fl :=
  match x, y with
  | NaN, _ | _, NaN => NaN
  | Fin a, Fin b => if Qzerob b then inf_signed true a else Fin (a / b)
  | Fin _, (PInf | NInf) => Fin 0
  | PInf, Fin b => if Qltb b 0 then NInf else PInf
  | NInf, Fin b => if Qltb b 0 then PInf else NInf
  | (PInf | NInf), (PInf | NInf) => NaN
  end.

(** [x < y]: false as soon as one side is NaN. *)
Definition flt (x y : fl) : bool :=
  match x, y with
  | NaN, _ | _, NaN => false
  | Fin a, Fin b => Qltb a b
  | NInf, (Fin _ | PInf) => true
  | Fin _, PInf => true
  | _, _ => false
  end.

(** [x <= y]: false as soon as one side is NaN. *)
Definition fle (x y : fl) : bool :=
  match x, y with
  | NaN, _ | _, NaN => false
  | Fin a, Fin b => Qle_bool a b
  | NInf, _ => true
  | _, PInf => true
  | _, _ => false
  end.

Definition fl_of_nat (n : nat) : fl := Fin (inject_Z (Z.of_nat n)).

(** [x ** n] for a float [x] and a non-negative integer [n]. *)
Fixpoint fpow (x : fl) (n : nat) : fl :=
  match n with
  | O => fone
  | S m => match m with
           | O => x
           | S _ => fmul x (fpow x m)
           end
  end.

(** ** One-dimensional tensors: the singular values *)

Definition fsum (l : list fl) : fl := foldr fadd fzero l.

Definition fmean (l : list fl) : fl := fdiv (fsum l) (fl_of_nat (length l)).

(** [torch.var] with its default correction of one degree of freedom:
    the sum of the squared deviations from the mean over [max 0 (N - 1)]. *)
Definition var (l : list fl) : fl :=
  let m := fmean l in
  let dev := map (fun x => fmul (fsub x m) (fsub x m)) l in
  fdiv (fsum dev) (fl_of_nat (length l - 1)).

(** [s_current = s.clone(); s_current[s_max:] = 0]: a slice that starts
    past the end selects nothing. *)
Definition zero_from (s_max : nat) (s : list fl) : list fl :=
  take s_max s ++ replicate (length s - s_max) fzero.

Definition tsub (a b : list fl) : list fl := zip_with fsub a b.

(** [compute_explained_ratio(s_max, s)] *)
Definition compute_explained_ratio (s_max : nat) (s : list fl) : fl :=
  let s_current := zero_from s_max s in
  fsub fone (fdiv (var (tsub s s_current)) (var s)).

Definition rank_buffer : nat := 100.
Definition explained_ratio_threshold : fl := Fin (9 # 10).

(** The rank-growth loop
    [while compute_explained_ratio(curr_rank, s) < threshold: curr_rank += 1].
    [None] when the fuel is used up before the loop exits. *)
Fixpoint rank_loop (fuel : nat) (curr_rank : nat) (s : list fl) : option nat :=
  match fuel with
  | O => None
  | S f =>
      if flt (compute_explained_ratio curr_rank s) explained_ratio_threshold
      then rank_loop f (S curr_rank) s
      else Some curr_rank
  end.

(** Fuel that the loop never uses up (lemma [rank_loop_total]). *)
Definition loop_fuel (curr_rank : nat) (s : list fl) : nat :=
  S (length s - curr_rank).

(** ** Matrices *)

(** A 2-D tensor: its number of columns and its rows.  The number of rows is
    the length of [cells]; the column count is kept apart so that a matrix
    without rows still has a shape. *)
Record Tensor : Type := mkTensor {
  ncols : nat;
  cells : list (list fl)
}.

Definition nrows (t : Tensor) : nat := length (cells t).

(** [t.size(dim=d)] for [d] in 0, 1. *)
Definition size (t : Tensor) (dim : nat) : nat :=
  if decide (dim = 0) then nrows t else ncols t.

(** Every row has [ncols] entries. *)
Definition rect (t : Tensor) : Prop :=
  Forall (fun r => length r = ncols t) (cells t).

Definition same_shape (a b : Tensor) : Prop :=
  nrows a = nrows b /\ ncols a = ncols b.

(** [t[i, j]] *)
Definition entry (t : Tensor) (i j : nat) : option fl :=
  cells t !! i ≫= fun r => r !! j.

Definition zeros (r c : nat) : Tensor :=
  mkTensor c (replicate r (replicate c fzero)).

(** [torch.zeros_like(t)] *)
Definition zeros_like (t : Tensor) : Tensor := zeros (nrows t) (ncols t).

(** [t[:k, :]]: a slice bound past the end is clamped. *)
Definition slice_rows (k : nat) (t : Tensor) : Tensor :=
  mkTensor (ncols t) (take k (cells t)).

(** [F.pad(t, (0, 0, 0, d), value=0)]: [d] rows of zeros after the last row. *)
Definition pad_rows (d : nat) (t : Tensor) : Tensor :=
  mkTensor (ncols t) (cells t ++ replicate d (replicate (ncols t) fzero)).

(** [F.pad(t, (0, d), value=0)]: [d] zeros at the end of every row. *)
Definition pad_cols (d : nat) (t : Tensor) : Tensor :=
  mkTensor (ncols t + d) (map (fun r => r ++ replicate d fzero) (cells t)).

Definition tmap (f : fl -> fl) (t : Tensor) : Tensor :=
  mkTensor (ncols t) (map (map f) (cells t)).

(** Broadcasting of one dimension: equal sizes, or one of them is 1. *)
Definition bdim (x y : nat) : option nat :=
  if decide (x = y) then Some x
  else if decide (x = 1) then Some y
  else if decide (y = 1) then Some x
  else None.

(** The view of [l] broadcast to [n] entries ([length l] is [n] or 1). *)
Definition stretch {A} (n : nat) (l : list A) : list A :=
  if decide (length l = n) then l
  else match l with
       | [x] => replicate n x
       | _ => l
       end.

(** [t.expand(r, c)] *)
Definition expand (r c : nat) (t : Tensor) : Tensor :=
  mkTensor c (stretch r (map (stretch c) (cells t))).

(** An elementwise binary operation with broadcasting; [None] when the
    shapes cannot be broadcast together (torch raises a RuntimeError). *)
Definition tzip (f : fl -> fl -> fl) (a b : Tensor) : option Tensor :=
  r ← bdim (nrows a) (nrows b);
  c ← bdim (ncols a) (ncols b);
  Some (mkTensor c (zip_with (zip_with f)
                      (cells (expand r c a)) (cells (expand r c b)))).

(** The in-place form [a.op_(b)]: the result must have the shape of [a]. *)
Definition tzip_ (f : fl -> fl -> fl) (a b : Tensor) : option Tensor :=
  t ← tzip f a b;
  if decide (nrows t = nrows a /\ ncols t = ncols a) then Some t else None.

(** ** Parameter groups, gradients and optimizer state *)

(** The projection hyperparameters of a group that carries the key ["rank"]. *)
Record ProjArgs : Type := mkProjArgs {
  rank : nat;
  update_proj_gap : nat;
  scale : fl;
  proj_type : nat
}.

(** A parameter group.  Parameters are named by their identity (a number).
    [galore g = Some _] stands for ["rank" in group]. *)
Record Group : Type := mkGroup {
  params : list nat;
  lr : fl;
  betas : fl * fl;
  eps : fl;
  weight_decay : fl;
  correct_bias : bool;
  galore : option ProjArgs
}.

(** [p.grad]: absent, sparse, or a dense matrix. *)
Inductive Grad : Type :=
| GNone
| GSparse
| GDense (g : Tensor).

(** A [GaLoreProjector] object: its constructor arguments and its private
    memory, of a type [M] that the optimizer never looks into. *)
Record Projector (M : Type) : Type := mkProjector {
  p_rank : nat;
  p_gap : nat;
  p_scale : fl;
  p_type : nat;
  p_mem : M
}.
Arguments mkProjector {M}.
Arguments p_rank {M}.
Arguments p_gap {M}.
Arguments p_scale {M}.
Arguments p_type {M}.
Arguments p_mem {M}.

(** [self.state[p]]: a dictionary with the optional keys ["step"],
    ["projector"], ["exp_avg"] and ["exp_avg_sq"]. *)
Record PState (M : Type) : Type := mkPState {
  st_step : option nat;
  st_projector : option (Projector M);
  st_exp_avg : option Tensor;
  st_exp_avg_sq : option Tensor
}.
Arguments mkPState {M}.
Arguments st_step {M}.
Arguments st_projector {M}.
Arguments st_exp_avg {M}.
Arguments st_exp_avg_sq {M}.

Definition empty_pstate {M} : PState M := mkPState None None None None.

#[global] Instance PState_inhabited {M} : Inhabited (PState M) :=
  populate empty_pstate.

(** The optimizer object together with the parameter tensors it mutates.
    [state] is a [defaultdict]: reading a missing key gives the empty
    dictionary, which is what [state !!! p] does. *)
Record Optimizer (M : Type) : Type := mkOptimizer {
  param_groups : list Group;
  param_ranks : list nat;
  current_explained_ratios : list fl;
  state : gmap nat (PState M);
  weights : nat -> Tensor
}.
Arguments mkOptimizer {M}.
Arguments param_groups {M}.
Arguments param_ranks {M}.
Arguments current_explained_ratios {M}.
Arguments state {M}.
Arguments weights {M}.

(** What a call can raise, by cause. *)
Inductive error : Type :=
| InvalidHyperparameter   (* ValueError: one of the checks of __init__ *)
| NoGaloreGroup           (* ValueError: no group carries "rank" *)
| SparseGradient          (* RuntimeError raised by step *)
| IndexError              (* a list indexed out of range *)
| KeyError                (* a missing dictionary key *)
| ShapeMismatch           (* RuntimeError of torch: shapes do not broadcast *)
| MathDomainError         (* ValueError of math.sqrt *)
| ZeroDivisionError       (* a float divided by zero *)
| ProjectorError          (* whatever the projector raises *)
| OutOfFuel.              (* the embedding's loop bound; never reached *)

(** The outcome of a call: the state is the one left behind in both cases,
    since an exception does not undo the mutations made before it. *)
Inductive Outcome (S A : Type) : Type :=
| Done (a : A) (s : S)
| Raised (e : error) (s : S).
Arguments Done {S A}.
Arguments Raised {S A}.

Definition final {S A} (o : Outcome S A) : S :=
  match o with
  | Done _ s => s
  | Raised _ s => s
  end.

Definition Op (S A : Type) : Type := S -> Outcome S A.

Definition ret {S A} (a : A) : Op S A := fun s => Done a s.
Definition raise {S A} (e : error) : Op S A := fun s => Raised e s.
Definition bind {S A B} (m : Op S A) (k : A -> Op S B) : Op S B :=
  fun s => match m s with
           | Done a s' => k a s'
           | Raised e s' => Raised e s'
           end.
Definition gets {S A} (f : S -> A) : Op S A := fun s => Done (f s) s.
Definition modify {S} (f : S -> S) : Op S unit := fun s => Done tt (f s).
(** A value that must be there, or else [e] is raised. *)
Definition need {S A} (e : error) (o : option A) : Op S A :=
  match o with
  | Some a => ret a
  | None => raise e
  end.

#[global] Instance Op_ret {S} : MRet (Op S) := fun A => ret.
#[global] Instance Op_bind {S} : MBind (Op S) := fun A B k m => bind m k.

(** Run on the dictionary [self.state[p]] a computation written for one
    such dictionary.  Reading [self.state[p]] creates the entry. *)
Definition zoom {M A} (p : nat) (m : Op (PState M) A) : Op (Optimizer M) A :=
  fun o =>
    let put ps := mkOptimizer (param_groups o) (param_ranks o)
                    (current_explained_ratios o) (<[p := ps]> (state o))
                    (weights o) in
    match m (state o !!! p) with
    | Done a ps => Done a (put ps)
    | Raised e ps => Raised e (put ps)
    end.

Definition set_rank {M} (i r : nat) : Op (Optimizer M) unit :=
  fun o =>
    if decide (i < length (param_ranks o)) then
      Done tt (mkOptimizer (param_groups o) (<[i := r]> (param_ranks o))
                 (current_explained_ratios o) (state o) (weights o))
    else Raised IndexError o.

Definition set_ratio {M} (i : nat) (x : fl) : Op (Optimizer M) unit :=
  fun o =>
    if decide (i < length (current_explained_ratios o)) then
      Done tt (mkOptimizer (param_groups o) (param_ranks o)
                 (<[i := x]> (current_explained_ratios o)) (state o)
                 (weights o))
    else Raised IndexError o.

Definition get_rank {M} (i : nat) : Op (Optimizer M) nat :=
  rs ← gets param_ranks; need IndexError (rs !! i).

Definition set_weight {M} (p : nat) (t : Tensor) : Op (Optimizer M) unit :=
  modify (fun o => mkOptimizer (param_groups o) (param_ranks o)
                     (current_explained_ratios o) (state o)
                     (<[p := t]> (weights o))).

Definition set_step {M} (n : nat) : Op (PState M) unit :=
  modify (fun ps => mkPState (Some n) (st_projector ps) (st_exp_avg ps)
                      (st_exp_avg_sq ps)).
Definition set_projector {M} (pr : Projector M) : Op (PState M) unit :=
  modify (fun ps => mkPState (st_step ps) (Some pr) (st_exp_avg ps)
                      (st_exp_avg_sq ps)).
Definition set_exp_avg {M} (t : Tensor) : Op (PState M) unit :=
  modify (fun ps => mkPState (st_step ps) (st_projector ps) (Some t)
                      (st_exp_avg_sq ps)).
Definition set_exp_avg_sq {M} (t : Tensor) : Op (PState M) unit :=
  modify (fun ps => mkPState (st_step ps) (st_projector ps) (st_exp_avg ps)
                      (Some t)).
(** [state[key]] *)
Definition item {M A} (key : PState M -> option A) : Op (PState M) A :=
  o ← gets key; need KeyError o.

(** Python's [x / y] on floats raises when [y] is zero. *)
Definition py_div (x y : fl) : option fl :=
  match y with
  | Fin b => if Qzerob b then None else Some (fdiv x y)
  | _ => Some (fdiv x y)
  end.

(** ** Construction *)

Definition valid_lr (x : fl) : bool := negb (flt x fzero).
Definition valid_beta (x : fl) : bool := fle fzero x && flt x fone.
Definition valid_eps (x : fl) : bool := fle fzero x.

(** [self.galore_group]: the last group that carries ["rank"]. *)
Definition galore_group (gs : list Group) : option Group :=
  foldl (fun acc g => if galore g is Some _ then Some g else acc) None gs.

(** [__init__].  [groups] lists, for every parameter group handed to the
    constructor, its parameters and its projection hyperparameters if it has
    them; every group takes the optimizer's defaults for the rest.  The
    deprecation warning and the version requirement are left out. *)
Definition init {M} (groups : list (list nat * option ProjArgs))
    (lr : fl) (betas : fl * fl) (eps weight_decay : fl) (correct_bias : bool)
    (w : nat -> Tensor) : error + Optimizer M :=
  if negb (valid_lr lr) then inl InvalidHyperparameter
  else if negb (valid_beta (fst betas)) then inl InvalidHyperparameter
  else if negb (valid_beta (snd betas)) then inl InvalidHyperparameter
  else if negb (valid_eps eps) then inl InvalidHyperparameter
  else
    let gs := map (fun g => mkGroup (fst g) lr betas eps weight_decay
                              correct_bias (snd g)) groups in
    match galore_group gs with
    | None => inl NoGaloreGroup
    | Some g =>
        inr (mkOptimizer gs (replicate (length (params g)) 2)
               (replicate (length (params g)) fzero) ∅ w)
    end.

(** ** Collaborators for the examples

    Concrete stand-ins for the three collaborators, right on the gradients
    the examples use: matrices whose only non-zero entries are on the
    diagonal, non-negative and non-increasing. *)

(** The singular values of such a matrix are its diagonal entries. *)
Definition diag_svdvals (t : Tensor) : list fl :=
  omap (fun k => entry t k k) (seq 0 (min (nrows t) (ncols t))).

(** The square root of a rational, exact on squares. *)
Definition sqrt_exact (q : Q) : Q := Z.sqrt (Qnum q) # Pos.sqrt (Qden q).

(** On such a gradient the orthonormal factors of the decomposition are
    identity matrices, so the projection keeps the leading [rank] columns
    when there are at least as many rows as columns, and the leading [rank]
    rows otherwise.  The memory of the projector is the shape of the full
    gradient. *)
Definition lead_project (pr : Projector (nat * nat)) (g : Tensor) (t : nat)
    : option (Tensor * (nat * nat)) :=
  let low :=
    if decide (ncols g <= nrows g)
    then mkTensor (min (p_rank pr) (ncols g)) (map (take (p_rank pr)) (cells g))
    else slice_rows (p_rank pr) g in
  Some (low, (nrows g, ncols g)).

Definition lead_project_back (pr : Projector (nat * nat)) (low : Tensor)
    : option Tensor :=
  let '(m, n) := p_mem pr in
  let full :=
    if decide (n <= m) then pad_cols (n - ncols low) low
    else pad_rows (m - nrows low) low in
  Some (tmap (fun x => fmul x (p_scale pr)) full).

(** ** Example data *)

Definition ex_args : ProjArgs := mkProjArgs 128 200 fone 0.

(** One projection group with the parameter 7. *)
Definition ex_group : Group :=
  mkGroup [7] (Fin (1 # 100)) (Fin (9 # 10), Fin (999 # 1000))
    (Fin (1 # 1000000)) fzero true (Some ex_args).

(** The same group with a second parameter, 8. *)
Definition ex_group2 : Group :=
  mkGroup [7; 8] (Fin (1 # 100)) (Fin (9 # 10), Fin (999 # 1000))
    (Fin (1 # 1000000)) fzero true (Some ex_args).

(** A new optimizer over [group] whose parameters all hold [w]. *)
Definition ex_opt (group : Group) (w : Tensor) : Optimizer (nat * nat) :=
  mkOptimizer [group] (replicate (length (params group)) 2)
    (replicate (length (params group)) fzero) ∅ (fun _ => w).

(** A gradient of one row, [[5, 0]]; its only singular value is 5. *)
Definition row_grad : Tensor := mkTensor 2 [[Fin 5; Fin 0]].


(** Two 4 x 3 gradients, with the diagonals 5, 4, 0 and 5, 4, 3. *)
Definition diag_grad2 : Tensor :=
  mkTensor 3 [[Fin 5; Fin 0; Fin 0]; [Fin 0; Fin 4; Fin 0];
              [Fin 0; Fin 0; Fin 0]; [Fin 0; Fin 0; Fin 0]].
Definition diag_grad3 : Tensor :=
  mkTensor 3 [[Fin 5; Fin 0; Fin 0]; [Fin 0; Fin 4; Fin 0];
              [Fin 0; Fin 0; Fin 3]; [Fin 0; Fin 0; Fin 0]].

(** Parameter 7 has the gradient [g], parameter 8 a sparse one, the others
    none. *)
Definition ex_grads (g : Tensor) (p : nat) : Grad :=
  if decide (p = 7) then GDense g
  else if decide (p = 8) then GSparse
  else GNone.

(** Parameter 8 has the gradient [g], the others have none. *)
Definition ex_grads_second (g : Tensor) (p : nat) : Grad :=
  if decide (p = 8) then GDense g else GNone.

(** A group that carries no rank, with a weight decay of 1/10. *)
Definition ex_plain : Group :=
  mkGroup [7] (Fin (1 # 100)) (Fin (9 # 10), Fin (999 # 1000))
    (Fin (1 # 1000000)) (Fin (1 # 10)) true None.

(** An optimizer over [ex_group] and a larger group that also carries a
    rank, as the constructor builds it when [ex_group] comes last. *)
Definition ex_opt_two (w : Tensor) : Optimizer (nat * nat) :=
  mkOptimizer [ex_group2; ex_group] [2] [fzero] ∅ (fun _ => w).

(** A 2 x 2 gradient and a 3 x 2 gradient. *)
Definition small_grad : Tensor := mkTensor 2 [[Fin 1; Fin 2]; [Fin 3; Fin 4]].
Definition tall_grad : Tensor :=
  mkTensor 2 [[Fin 1; Fin 2]; [Fin 3; Fin 4]; [Fin 5; Fin 6]].

(** Moment buffers of 4 x 2 entries, and the dictionary that holds them. *)
Definition ex_buffer : Tensor :=
  mkTensor 2 [[Fin (1 # 2); Fin 0]; [Fin 0; Fin (2 # 5)];
              [Fin 0; Fin 0]; [Fin 0; Fin 0]].
Definition ex_pstate : PState (nat * nat) :=
  mkPState (Some 1) None (Some ex_buffer) (Some ex_buffer).

(** ** The step *)

Section Step.
Context {M : Type}.

(** [torch.linalg.svdvals] on a matrix. *)
Variable svdvals : Tensor -> list fl.
(** The square root of a non-negative rational. *)
Variable sqrtQ : Q -> Q.
(** [GaLoreProjector]: the memory of a new projector, [project] (which may
    change the memory) and [project_back]; [None] when the call raises. *)
Variable fresh_mem : M.
Variable project : Projector M -> Tensor -> nat -> option (Tensor * M).
Variable project_back : Projector M -> Tensor -> option Tensor.

(** [torch.sqrt] *)
Definition fsqrt (x : fl) : fl :=
  match x with
  | Fin q => if Qltb q 0 then NaN else Fin (sqrtQ q)
  | PInf => PInf
  | NInf | NaN => NaN
  end.

(** [math.sqrt]: raises on a negative argument. *)
Definition math_sqrt (x : fl) : option fl :=
  match x with
  | Fin q => if Qltb q 0 then None else Some (Fin (sqrtQ q))
  | PInf => Some PInf
  | NInf => None
  | NaN => Some NaN
  end.

(** Lines 159-163: the step size at step counter [t]. *)
Definition step_size {S} (group : Group) (t : nat) : Op S fl :=
  let step_size := lr group in
  if correct_bias group then
    let bias_correction1 := fsub fone (fpow (fst (betas group)) t) in
    let bias_correction2 := fsub fone (fpow (snd (betas group)) t) in
    r ← need MathDomainError (math_sqrt bias_correction2);
    need ZeroDivisionError (py_div (fmul step_size r) bias_correction1)
  else mret step_size.

(** Line 123: the loop, run with fuel that it cannot use up. *)
Definition grow_rank {S} (curr_rank : nat) (s : list fl) : Op S nat :=
  need OutOfFuel (rank_loop (loop_fuel curr_rank s) curr_rank s).

(** Lines 116-126: the InRank update of the rank of the parameter at
    position [i].  The cast of the slice to float changes nothing here. *)
Definition inrank_update (i : nat) (grad : Tensor) : Op (Optimizer M) unit :=
  curr_rank ← get_rank i;
  let matrix := slice_rows (curr_rank + rank_buffer) grad in
  let s := svdvals matrix in
  curr_rank ← grow_rank curr_rank s;
  set_ratio i (compute_explained_ratio curr_rank s);;
  set_rank i curr_rank.

(** Lines 128-129: a new projector when there is none or the rank moved. *)
Definition renew_projector (r : nat) (pa : ProjArgs) : Op (PState M) unit :=
  let new := mkProjector r (update_proj_gap pa) (scale pa) (proj_type pa)
               fresh_mem in
  cur ← gets st_projector;
  match cur with
  | None => set_projector new
  | Some pr => if decide (r ≠ p_rank pr) then set_projector new else mret tt
  end.

(** Line 131: [state["projector"].project(grad, state["step"])]. *)
Definition run_project (grad : Tensor) : Op (PState M) Tensor :=
  pr ← item st_projector;
  t ← item st_step;
  res ← need ProjectorError (project pr grad t);
  set_projector (mkProjector (p_rank pr) (p_gap pr) (p_scale pr) (p_type pr)
                   (snd res));;
  mret (fst res).

(** Line 141 *)
Definition rank_dim (grad : Tensor) : nat :=
  if decide (size grad 0 < size grad 1) then 0 else 1.

(** Lines 144-146: [F.pad] with [(0, 0, 0, rank_diff)] or [(0, rank_diff)]. *)
Definition pad (rank_dim rank_diff : nat) (t : Tensor) : Tensor :=
  if decide (rank_dim = 0) then pad_rows rank_diff t
  else pad_cols rank_diff t.

(** Lines 134-146: allocate the moment buffers, or grow them to the rank
    [ranks[i]] of the parameter. *)
Definition reconcile (group : Group) (ranks : list nat) (i : nat)
    (grad : Tensor) : Op (PState M) unit :=
  cur ← gets st_exp_avg;
  match cur with
  | None =>
      set_exp_avg (zeros_like grad);;
      set_exp_avg_sq (zeros_like grad)
  | Some exp_avg =>
      if galore group is Some _ then
        let rank_dim := rank_dim grad in
        r ← need IndexError (ranks !! i);
        if decide (size exp_avg rank_dim < r) then
          let rank_diff := r - size exp_avg rank_dim in
          set_exp_avg (pad rank_dim rank_diff exp_avg);;
          exp_avg_sq ← item st_exp_avg_sq;
          set_exp_avg_sq (pad rank_dim rank_diff exp_avg_sq)
        else mret tt
      else mret tt
  end.

(** Lines 148-157: the step counter and the two running averages, updated
    in place; returns [exp_avg] and [denom]. *)
Definition update_moments (group : Group) (grad : Tensor)
    : Op (PState M) (Tensor * Tensor) :=
  exp_avg ← item st_exp_avg;
  exp_avg_sq ← item st_exp_avg_sq;
  let beta1 := fst (betas group) in
  let beta2 := snd (betas group) in
  t ← item st_step;
  set_step (t + 1);;
  let exp_avg := tmap (fun x => fmul x beta1) exp_avg in
  set_exp_avg exp_avg;;
  exp_avg ← need ShapeMismatch
    (tzip_ (fun x g => fadd x (fmul (fsub fone beta1) g)) exp_avg grad);
  set_exp_avg exp_avg;;
  let exp_avg_sq := tmap (fun x => fmul x beta2) exp_avg_sq in
  set_exp_avg_sq exp_avg_sq;;
  exp_avg_sq ← need ShapeMismatch
    (tzip_ (fun x g => fadd x (fmul (fsub fone beta2) (fmul g g)))
       exp_avg_sq grad);
  set_exp_avg_sq exp_avg_sq;;
  let denom := tmap (fun x => fadd (fsqrt x) (eps group)) exp_avg_sq in
  mret (exp_avg, denom).

(** Lines 108-109 *)
Definition init_step : Op (PState M) unit :=
  cur ← gets st_step;
  if cur is None then set_step 0 else mret tt.

(** Lines 112-131: for a group that carries ["rank"], the rank update and
    the projection of the gradient. *)
Definition galore_project (group : Group) (i p : nat) (grad : Tensor)
    : Op (Optimizer M) Tensor :=
  match galore group with
  | Some pa =>
      inrank_update i grad;;
      r ← get_rank i;
      zoom p (renew_projector r pa;; run_project grad)
  | None => mret grad
  end.

(** Lines 159-183: the step size, the normalized gradient projected back,
    the update of the parameter and the weight decay.  [m] is the pair of
    [exp_avg] and [denom]. *)
Definition apply_update (group : Group) (p : nat) (m : Tensor * Tensor)
    : Op (Optimizer M) unit :=
  t ← zoom p (item st_step);
  step_size ← step_size group t;
  norm_grad ← need ShapeMismatch (tzip fdiv (fst m) (snd m));
  norm_grad ← (if galore group is Some _ then
                 pr ← zoom p (item st_projector);
                 need ProjectorError (project_back pr norm_grad)
               else mret norm_grad);
  w ← gets (fun o => weights o p);
  w ← need ShapeMismatch
    (tzip_ (fun x n => fadd x (fmul (fneg step_size) n)) w norm_grad);
  set_weight p w;;
  if flt fzero (weight_decay group) then
    let alpha := fmul (fneg (lr group)) (weight_decay group) in
    set_weight p (tmap (fun x => fadd x (fmul alpha x)) w)
  else mret tt.

(** Lines 100-183: the body of the loop for the parameter [p] at position
    [i] of [group]. *)
Definition visit (grads : nat -> Grad) (group : Group) (i p : nat)
    : Op (Optimizer M) unit :=
  match grads p with
  | GNone => mret tt
  | GSparse => raise SparseGradient
  | GDense grad =>
      zoom p init_step;;
      grad ← galore_project group i p grad;
      ranks ← gets param_ranks;
      zoom p (reconcile group ranks i grad);;
      m ← zoom p (update_moments group grad);
      apply_update group p m
  end.

(** [for i, p in enumerate(group["params"])], from position [i] on. *)
Fixpoint visit_params (grads : nat -> Grad) (group : Group) (i : nat)
    (ps : list nat) : Op (Optimizer M) unit :=
  match ps with
  | [] => mret tt
  | p :: ps' => visit grads group i p;; visit_params grads group (S i) ps'
  end.

(** [for group in self.param_groups] *)
Fixpoint visit_groups (grads : nat -> Grad) (gs : list Group)
    : Op (Optimizer M) unit :=
  match gs with
  | [] => mret tt
  | g :: gs' =>
      visit_params grads g 0 (params g);; visit_groups grads gs'
  end.

(** [step(closure)]: [closure] is the loss that the closure returns, if
    there is one; [grads] gives [p.grad] for every parameter. *)
Definition step {L} (closure : option L) (grads : nat -> Grad)
    : Op (Optimizer M) (option L) :=
  let loss := closure in
  gs ← gets param_groups;
  visit_groups grads gs;;
  mret loss.


(** ** Vocabulary of the statements *)

(** Zero or NaN: what a difference [x - x] can be, and what stays so
    through the sums, products and quotients of [var]. *)
Definition zeroish (x : fl) : Prop :=
  match x with
  | Fin q => (q == 0)%Q
  | NaN => True
  | _ => False
  end.

(** [keeps R m]: whatever the outcome of [m], the state it leaves behind
    is related by [R] to the state it started from. *)
Definition keeps {S A} (R : relation S) (m : Op S A) : Prop :=
  forall s, R s (final (m s)).

(** [pure m]: [m] leaves the state as it is. *)
Definition pure {S A} (m : Op S A) : Prop :=
  forall s, final (m s) = s.

(** [b] has at least the rows and the columns of [a]. *)
Definition no_smaller (a b : Tensor) : Prop :=
  nrows a <= nrows b /\ ncols a <= ncols b.

(** The two moment buffers, once there, stay, and no axis of either
    shrinks. *)
Definition grows (ps ps' : PState M) : Prop :=
  forall a b, st_exp_avg ps = Some a -> st_exp_avg_sq ps = Some b ->
    exists a' b', st_exp_avg ps' = Some a' /\ st_exp_avg_sq ps' = Some b' /\
      no_smaller a a' /\ no_smaller b b'.

(** What the visit of the parameter [p] may change: the dictionary and the
    tensor of [p] alone, and in the two tables the position [ix] alone, if
    there is one; ranks do not decrease and moment buffers do not shrink. *)
Record step_rel (p : nat) (ix : option nat) (o o' : Optimizer M) : Prop :=
  mk_step_rel {
    sr_groups : param_groups o' = param_groups o;
    sr_ranks : Forall2 le (param_ranks o) (param_ranks o');
    sr_ratios : length (current_explained_ratios o') =
                length (current_explained_ratios o);
    sr_grows : forall q, grows (state o !!! q) (state o' !!! q);
    sr_state : forall q, q ≠ p -> state o' !!! q = state o !!! q;
    sr_weights : forall q, q ≠ p -> weights o' q = weights o q;
    sr_ranks_at : forall j, ix ≠ Some j ->
      param_ranks o' !! j = param_ranks o !! j;
    sr_ratios_at : forall j, ix ≠ Some j ->
      current_explained_ratios o' !! j = current_explained_ratios o !! j
  }.

(** The position of the tables that a visit at position [i] of [group]
    may write. *)
Definition table_slot (group : Group) (i : nat) : option nat :=
  if galore group is Some _ then Some i else None.

(** Over a whole step: the groups stay, ranks do not decrease, moment
    buffers do not shrink. *)
Definition evolves (o o' : Optimizer M) : Prop :=
  param_groups o' = param_groups o /\
  Forall2 le (param_ranks o) (param_ranks o') /\
  forall q, grows (state o !!! q) (state o' !!! q).

(** The dictionary and the tensor of the parameter [p] are as before. *)
Definition untouched (p : nat) (o o' : Optimizer M) : Prop :=
  state o' !!! p = state o !!! p /\ weights o' p = weights o p.

(** Position [i] of the Rank Table and of the Explained-Ratio Table is as
    before. *)
Definition same_slot (i : nat) (o o' : Optimizer M) : Prop :=
  param_ranks o' !! i = param_ranks o !! i /\
  current_explained_ratios o' !! i = current_explained_ratios o !! i.

(** The optimizer after the steps of [gl], one list of gradients per step,
    whether or not a step raised. *)
Definition lifetime (gl : list (nat -> Grad)) (o : Optimizer M)
    : Optimizer M :=
  foldl (fun o grads => final (step (L:=unit) None grads o)) o gl.

(** [t'] is [t] grown to size [r] along the axis [rd] by zeros put after
    the last index of that axis: the other axis is as it was, what was in
    [t] is in [t'] at the same indices, and the rest of [t'] is zero. *)
Definition padded (rd r : nat) (t t' : Tensor) : Prop :=
  size t' rd = r /\
  size t' (1 - rd) = size t (1 - rd) /\
  no_smaller t t' /\
  (forall i j, i < nrows t -> j < ncols t ->
     is_Some (entry t i j) /\ entry t' i j = entry t i j) /\
  (forall i j, i < nrows t' -> j < ncols t' ->
     ~ (i < nrows t /\ j < ncols t) -> entry t' i j = Some fzero).

(** [m] never raises the error that stands for a loop out of fuel. *)
Definition fuel_suffices {S A} (m : Op S A) : Prop :=
  forall s s', m s <> Raised OutOfFuel s'.

(** [exp_avg] comes with an [exp_avg_sq] of its shape. *)
Definition coherent (ps : PState M) : Prop :=
  forall a, st_exp_avg ps = Some a ->
    exists b, st_exp_avg_sq ps = Some b /\ same_shape a b.

(** Every dictionary of the optimizer is coherent. *)
Definition all_coherent (o : Optimizer M) : Prop :=
  forall q, coherent (state o !!! q).

(** [P] holds after if it held before. *)
Definition carries {S} (P : S -> Prop) : relation S :=
  fun s s' => P s -> P s'.

(** The two moment buffers are the same. *)
Definition same_buffers (ps ps' : PState M) : Prop :=
  st_exp_avg ps' = st_exp_avg ps /\ st_exp_avg_sq ps' = st_exp_avg_sq ps.

(** The Rank Table and the moment buffers of [p] are the same. *)
Definition tail_rel (p : nat) (o o' : Optimizer M) : Prop :=
  param_ranks o' = param_ranks o /\
  same_buffers (state o !!! p) (state o' !!! p).


(** The groups and the lengths of the two tables are the same. *)
Definition same_layout (o o' : Optimizer M) : Prop :=
  param_groups o' = param_groups o /\
  length (param_ranks o') = length (param_ranks o) /\
  length (current_explained_ratios o') = length (current_explained_ratios o).

(** The step counter, once there, stays, and does not decrease. *)
Definition counter_le (ps ps' : PState M) : Prop :=
  forall t, st_step ps = Some t ->
    exists t', st_step ps' = Some t' /\ t <= t'.

(** [R] relates the dictionaries of every parameter. *)
Definition lift (R : relation (PState M)) : relation (Optimizer M) :=
  fun o o' => forall q, R (state o !!! q) (state o' !!! q).

(** The item [f] of a dictionary is the same. *)
Definition same_on {X} (f : PState M -> X) : relation (PState M) :=
  fun ps ps' => f ps' = f ps.

(** The value that a new dictionary gives to ["step"] at line 109. *)
Definition counter (ps : PState M) : nat := default 0 (st_step ps).

(** The Rank Table and the whole dictionary of [p] are the same. *)
Definition dict_same (p : nat) (o o' : Optimizer M) : Prop :=
  param_ranks o' = param_ranks o /\
  current_explained_ratios o' = current_explained_ratios o /\
  state o' !!! p = state o !!! p.

(** [o] with [ps] as the dictionary of [p]. *)
Definition with_dict (p : nat) (ps : PState M) (o : Optimizer M)
    : Optimizer M :=
  mkOptimizer (param_groups o) (param_ranks o) (current_explained_ratios o)
    (<[p := ps]> (state o)) (weights o).

(** The dictionary [ps] once line 109 has given it a step counter. *)
Definition started (ps : PState M) : PState M :=
  mkPState (Some (counter ps)) (st_projector ps) (st_exp_avg ps)
    (st_exp_avg_sq ps).

(** The elementwise operation [f] on two matrices of one shape. *)
Definition zipt (f : fl -> fl -> fl) (a b : Tensor) : Tensor :=
  mkTensor (ncols a) (zip_with (zip_with f) (cells a) (cells b)).

(** ** Facts on the extended rationals *)

Lemma Qzerob_true q : (q == 0)%Q -> Qzerob q = true.
Proof. intros H. unfold Qzerob. by apply Qeq_bool_iff. Qed.

Lemma Qzerob_false q : ~ (q == 0)%Q -> Qzerob q = false.
Proof.
  intros H. unfold Qzerob. destruct (Qeq_bool q 0) eqn:E; [|done].
  by apply Qeq_bool_iff in E.
Qed.

Lemma Qltb_true a b : Qltb a b = true <-> (a < b)%Q.
Proof.
  unfold Qltb. rewrite Bool.negb_true_iff. split.
  - intros H. apply Qnot_le_lt. intros Hle.
    apply Qle_bool_iff in Hle. congruence.
  - intros H. destruct (Qle_bool b a) eqn:E; [|done].
    apply Qle_bool_iff in E. lra.
Qed.

Lemma Qltb_false a b : Qltb a b = false <-> (b <= a)%Q.
Proof.
  unfold Qltb. rewrite Bool.negb_false_iff. apply Qle_bool_iff.
Qed.

Lemma zeroish_fsub_diag x : zeroish (fsub x x).
Proof. destruct x; simpl; [lra|done..]. Qed.

Lemma zeroish_fadd x y : zeroish x -> zeroish y -> zeroish (fadd x y).
Proof. destruct x, y; simpl; try done. intros. lra. Qed.

Lemma zeroish_fsub x y : zeroish x -> zeroish y -> zeroish (fsub x y).
Proof. destruct x, y; simpl; try done. intros. lra. Qed.

Lemma zeroish_fmul x y : zeroish x -> zeroish y -> zeroish (fmul x y).
Proof. destruct x, y; simpl; try done. intros. nra. Qed.

Lemma zeroish_fdiv x y : zeroish x -> zeroish (fdiv x y).
Proof.
  destruct x as [a| | |], y as [b| | |]; simpl; try done.
  - intros Ha. destruct (Qzerob b) eqn:E.
    + unfold inf_signed. by rewrite (Qzerob_true a Ha).
    + simpl. rewrite Ha. unfold Qdiv. lra.
Qed.

Lemma zeroish_fsum l : Forall zeroish l -> zeroish (fsum l).
Proof.
  induction 1 as [|x l Hx _ IH]; simpl; [reflexivity|].
  by apply zeroish_fadd.
Qed.

Lemma zeroish_var l : Forall zeroish l -> zeroish (var l).
Proof.
  intros Hl. unfold var. apply zeroish_fdiv, zeroish_fsum.
  apply Forall_map. eapply Forall_impl; [exact Hl|].
  intros x Hx. simpl.
  assert (zeroish (fsub x (fmean l))) as Hd.
  { apply zeroish_fsub; [done|]. by apply zeroish_fdiv, zeroish_fsum. }
  by apply zeroish_fmul.
Qed.

Lemma zero_from_all k (s : list fl) : length s <= k -> zero_from k s = s.
Proof.
  intros H. unfold zero_from. rewrite take_ge by lia.
  replace (length s - k) with 0 by lia. apply app_nil_r.
Qed.

Lemma tsub_diag_zeroish (s : list fl) : Forall zeroish (tsub s s).
Proof.
  unfold tsub. induction s as [|x s IH]; simpl; constructor; [|done].
  apply zeroish_fsub_diag.
Qed.

(** Once the candidate index has reached the number of singular values,
    the ratio is 1 or NaN: the test of the loop is false. *)
Lemma ratio_past_end k (s : list fl) :
  length s <= k ->
  flt (compute_explained_ratio k s) explained_ratio_threshold = false.
Proof.
  intros H. unfold compute_explained_ratio. rewrite zero_from_all by done.
  pose proof (zeroish_fdiv _ (var s) (zeroish_var _ (tsub_diag_zeroish s)))
    as Hz.
  destruct (fdiv _ _) as [q| | |]; simpl in *; try done.
  apply Qltb_false. lra.
Qed.

Lemma rank_loop_spec n : forall k (s : list fl), length s - k < n ->
  exists r, rank_loop n k s = Some r /\ k <= r <= max k (length s) /\
    flt (compute_explained_ratio r s) explained_ratio_threshold = false.
Proof.
  induction n as [|n IH]; intros k s Hn; [lia|]. simpl.
  destruct (flt (compute_explained_ratio k s) explained_ratio_threshold)
    eqn:E.
  - destruct (decide (length s <= k)) as [Hle|Hgt].
    { rewrite ratio_past_end in E by done. done. }
    destruct (IH (S k) s) as (r & Hr & Hb & Hf); [lia|].
    exists r. split_and!; [done|lia|lia|done].
  - exists k. split_and!; [done|lia|lia|done].
Qed.

Lemma rank_loop_total k (s : list fl) :
  exists r, rank_loop (loop_fuel k s) k s = Some r /\
    k <= r <= max k (length s) /\
    flt (compute_explained_ratio r s) explained_ratio_threshold = false.
Proof. apply rank_loop_spec. unfold loop_fuel. lia. Qed.

(** More fuel does not change the result of the loop. *)
Lemma rank_loop_fuel_mono n : forall m k (s : list fl) r,
  rank_loop n k s = Some r -> n <= m -> rank_loop m k s = Some r.
Proof.
  induction n as [|n IH]; intros m k s r H Hm; [done|].
  destruct m as [|m]; [lia|]. simpl in *.
  destruct (flt _ _); [|done]. apply IH; [done|lia].
Qed.

(** C1 (as amended): the rank-growth loop has no bound check and raises
    nothing.  From every starting rank and on every spectrum it exits
    normally, at a rank between the starting rank and the larger of the
    starting rank and the number of singular values, where the test
    [ratio < threshold] is false; more fuel gives the same rank.  When the
    starting rank is at least the number of singular values, the loop
    exits at once with the rank unchanged. *)
Theorem rank_growth_exits_normally {S} (k : nat) (s : list fl) (st : S) :
  exists r,
    grow_rank k s st = Done r st /\
    (forall n, loop_fuel k s <= n -> rank_loop n k s = Some r) /\
    k <= r <= max k (length s) /\
    flt (compute_explained_ratio r s) explained_ratio_threshold = false /\
    (length s <= k -> r = k).
Proof.
  destruct (rank_loop_total k s) as (r & Hr & Hb & Hf).
  exists r. unfold grow_rank. rewrite Hr. split_and!; try done; try lia.
  intros n Hn. by eapply rank_loop_fuel_mono.
Qed.

(** ** Reasoning about computations *)

Lemma pure_keeps {S A} (R : relation S) `{!Reflexive R} (m : Op S A) :
  pure m -> keeps R m.
Proof. intros H s. by rewrite H. Qed.

Lemma keeps_bind {S A B} (R : relation S) `{!Transitive R}
    (m : Op S A) (k : A -> Op S B) :
  keeps R m -> (forall a, keeps R (k a)) -> keeps R (m ≫= k).
Proof.
  intros Hm Hk s. unfold mbind, Op_bind, bind.
  specialize (Hm s). destruct (m s) as [a s'|e s']; simpl in *; [|done].
  etrans; [exact Hm|apply Hk].
Qed.

Lemma pure_bind {S A B} (m : Op S A) (k : A -> Op S B) :
  pure m -> (forall a, pure (k a)) -> pure (m ≫= k).
Proof.
  intros Hm Hk s. unfold mbind, Op_bind, bind.
  specialize (Hm s). destruct (m s) as [a s'|e s']; simpl in *; [|done].
  subst s'. apply Hk.
Qed.

Lemma pure_ret {S A} (a : A) : pure (mret a : Op S A).
Proof. done. Qed.

Lemma pure_raise {S A} (e : error) : pure (raise e : Op S A).
Proof. done. Qed.

Lemma pure_gets {S A} (f : S -> A) : pure (gets f).
Proof. done. Qed.

Lemma pure_need {S A} (e : error) (o : option A) : pure (need e o : Op S A).
Proof. by destruct o. Qed.

Lemma pure_item {A} (key : PState M -> option A) : pure (item key).
Proof. apply pure_bind; [apply pure_gets|intros; apply pure_need]. Qed.

Lemma pure_get_rank (i : nat) : pure (get_rank (M:=M) i).
Proof. apply pure_bind; [apply pure_gets|intros; apply pure_need]. Qed.

Lemma pure_grow_rank {S} k s : pure (grow_rank (S:=S) k s).
Proof. apply pure_need. Qed.

Lemma pure_step_size {S} group t : pure (step_size (S:=S) group t).
Proof.
  unfold step_size. destruct (correct_bias group); [|apply pure_ret].
  apply pure_bind; intros; apply pure_need.
Qed.

(** *** The dictionary of one parameter *)

#[local] Instance no_smaller_refl : Reflexive no_smaller.
Proof. intros a. split; lia. Qed.

#[local] Instance no_smaller_trans : Transitive no_smaller.
Proof. intros a b c [? ?] [? ?]. split; lia. Qed.

#[local] Instance grows_refl : Reflexive grows.
Proof. intros ps a b Ha Hb. exists a, b. done. Qed.

#[local] Instance grows_trans : Transitive grows.
Proof.
  intros x y z Hxy Hyz a b Ha Hb.
  destruct (Hxy a b Ha Hb) as (a' & b' & Ha' & Hb' & ? & ?).
  destruct (Hyz a' b' Ha' Hb') as (a'' & b'' & Ha'' & Hb'' & ? & ?).
  exists a'', b''. split_and!; [done|done|by etrans|by etrans].
Qed.

Lemma nrows_tmap f t : nrows (tmap f t) = nrows t.
Proof. unfold nrows, tmap. simpl. by rewrite length_map. Qed.

Lemma tzip__shape f a b t :
  tzip_ f a b = Some t -> nrows t = nrows a /\ ncols t = ncols a.
Proof.
  unfold tzip_. destruct (tzip f a b) as [t'|]; simpl; [|done].
  destruct (decide _) as [H|]; [|done]. by intros [= <-].
Qed.

Lemma size_pad_rank rd d t : size (pad rd d t) rd = size t rd + d.
Proof.
  unfold pad, size. destruct (decide (rd = 0)) as [->|]; simpl.
  - unfold nrows, pad_rows. simpl.
    by rewrite length_app, length_replicate.
  - done.
Qed.

Lemma pad_no_smaller rd d t : no_smaller t (pad rd d t).
Proof.
  unfold no_smaller.
  unfold pad, nrows. destruct (decide (rd = 0)); simpl.
  - rewrite length_app. lia.
  - rewrite length_map. lia.
Qed.

#[local] Arguments fadd : simpl never.
#[local] Arguments fsub : simpl never.
#[local] Arguments fmul : simpl never.
#[local] Arguments fdiv : simpl never.
#[local] Arguments fneg : simpl never.
#[local] Arguments flt : simpl never.
#[local] Arguments fle : simpl never.
#[local] Arguments fpow : simpl never.
#[local] Arguments fsqrt : simpl never.
#[local] Arguments tmap : simpl never.
#[local] Arguments tzip : simpl never.
#[local] Arguments tzip_ : simpl never.
#[local] Arguments pad : simpl never.
#[local] Arguments zeros_like : simpl never.
#[local] Arguments rank_dim : simpl never.
#[local] Arguments size : simpl never.
#[local] Arguments compute_explained_ratio : simpl never.
#[local] Arguments rank_loop : simpl never.
#[local] Arguments loop_fuel : simpl never.
#[local] Arguments rank_buffer : simpl never.
#[local] Arguments slice_rows : simpl never.

Ltac op_unfold :=
  unfold item, need, set_step, set_projector, set_exp_avg, set_exp_avg_sq,
    mbind, mret, Op_bind, Op_ret, bind, ret, raise, gets, modify in *.

Ltac op_cases :=
  repeat (simpl in *;
          match goal with
          | |- context [match ?x with _ => _ end] =>
              lazymatch x with
              | context [match _ with _ => _ end] => fail
              | _ => destruct x eqn:?
              end
          end);
  simpl in *.

Ltac grows_tac :=
  intros ps a b Ha Hb; op_unfold; simpl; rewrite ?Ha, ?Hb; simpl;
  op_cases; simplify_eq; eexists _, _; (split_and!; [done|done|..]).

Lemma init_step_grows : keeps grows init_step.
Proof. unfold init_step. grows_tac; reflexivity. Qed.

Lemma renew_projector_grows r pa : keeps grows (renew_projector r pa).
Proof. unfold renew_projector. grows_tac; reflexivity. Qed.

Lemma run_project_grows grad : keeps grows (run_project grad).
Proof. unfold run_project. grows_tac; reflexivity. Qed.

Lemma reconcile_grows group ranks i grad :
  keeps grows (reconcile group ranks i grad).
Proof.
  unfold reconcile. grows_tac; try reflexivity; apply pad_no_smaller.
Qed.

Lemma tmap_no_smaller f t : no_smaller t (tmap f t).
Proof. split; [by rewrite nrows_tmap|done]. Qed.

Lemma tzip__no_smaller f g a b t :
  tzip_ f (tmap g a) b = Some t -> no_smaller a t.
Proof.
  intros [H1 H2]%tzip__shape. rewrite nrows_tmap in H1. simpl in H2.
  split; lia.
Qed.

Lemma update_moments_grows group grad :
  keeps grows (update_moments group grad).
Proof.
  unfold update_moments. grows_tac;
    try reflexivity; eauto using tmap_no_smaller, tzip__no_smaller.
Qed.

(** *** The optimizer *)

#[local] Instance step_rel_refl p ix : Reflexive (step_rel p ix).
Proof. intros o. split; done. Qed.

#[local] Instance step_rel_trans p ix : Transitive (step_rel p ix).
Proof.
  intros x y z [G1 R1 L1 W1 S1 T1 A1 B1] [G2 R2 L2 W2 S2 T2 A2 B2]. split.
  - congruence.
  - eapply Forall2_trans; [|exact R1|exact R2]. intros; lia.
  - congruence.
  - intros q. etrans; [apply W1|apply W2].
  - intros q Hq. rewrite S2, S1; done.
  - intros q Hq. rewrite T2, T1; done.
  - intros j Hj. rewrite A2, A1; done.
  - intros j Hj. rewrite B2, B1; done.
Qed.

Lemma keeps_zoom {A} p ix (m : Op (PState M) A) :
  keeps grows m -> keeps (step_rel p ix) (zoom p m).
Proof.
  intros Hm o. unfold zoom. specialize (Hm (state o !!! p)).
  destruct (m (state o !!! p)) as [a ps|e ps]; simpl in *.
  all: split; simpl; try done.
  all: try (intros q; destruct (decide (q = p)) as [->|Hne];
            [by rewrite lookup_total_insert_eq
            |by rewrite lookup_total_insert_ne]).
  all: intros q Hq; by rewrite lookup_total_insert_ne.
Qed.

Lemma keeps_set_weight p ix t : keeps (step_rel p ix) (set_weight p t).
Proof.
  intros o. split; simpl; try done.
  intros q Hq. by rewrite fn_lookup_insert_ne.
Qed.

Lemma Forall2_le_insert (l : list nat) i r0 r :
  l !! i = Some r0 -> r0 <= r -> Forall2 le l (<[i := r]> l).
Proof.
  intros Hi Hr. rewrite <- (list_insert_id l i r0) at 1 by done.
  apply Forall2_insert; [reflexivity|done].
Qed.

(** What lines 116-126 do, in full. *)
Lemma inrank_update_spec i grad (o : Optimizer M) r0 :
  param_ranks o !! i = Some r0 ->
  i < length (current_explained_ratios o) ->
  exists r,
    rank_loop (loop_fuel r0 (svdvals (slice_rows (r0 + rank_buffer) grad)))
      r0 (svdvals (slice_rows (r0 + rank_buffer) grad)) = Some r /\
    r0 <= r /\
    inrank_update i grad o =
      Done tt (mkOptimizer (param_groups o) (<[i := r]> (param_ranks o))
                 (<[i := compute_explained_ratio r
                          (svdvals (slice_rows (r0 + rank_buffer) grad))]>
                    (current_explained_ratios o))
                 (state o) (weights o)).
Proof.
  intros Hi Hlen.
  destruct (rank_loop_total r0
              (svdvals (slice_rows (r0 + rank_buffer) grad)))
    as (r & Hr & Hb & _).
  exists r. split_and!; [done|lia|].
  unfold inrank_update, get_rank, grow_rank, set_ratio, set_rank.
  op_unfold. simpl. rewrite Hi. simpl. rewrite Hr. simpl.
  rewrite decide_True by done. simpl.
  rewrite decide_True by (by eapply lookup_lt_Some). done.
Qed.

Lemma keeps_inrank_update p i grad :
  keeps (step_rel p (Some i)) (inrank_update i grad).
Proof.
  intros o.
  destruct (param_ranks o !! i) as [r0|] eqn:Hi; cycle 1.
  { unfold inrank_update, get_rank. op_unfold. simpl. rewrite Hi.
    simpl. reflexivity. }
  destruct (decide (i < length (current_explained_ratios o)))
    as [Hlen|Hlen]; cycle 1.
  { unfold inrank_update, get_rank, grow_rank, set_ratio. op_unfold. simpl.
    rewrite Hi. simpl. destruct (rank_loop _ _ _); simpl; [|reflexivity].
    rewrite decide_False by done. simpl. reflexivity. }
  destruct (inrank_update_spec i grad o r0 Hi Hlen) as (r & _ & Hr & ->).
  split; simpl; try done.
  - by eapply Forall2_le_insert.
  - by rewrite length_insert.
  - intros j Hj. apply list_lookup_insert_ne. congruence.
  - intros j Hj. apply list_lookup_insert_ne. congruence.
Qed.

Ltac pure_tac :=
  repeat first
    [ apply pure_ret | apply pure_raise | apply pure_gets | apply pure_need
    | apply pure_item | apply pure_get_rank | apply pure_grow_rank
    | apply pure_step_size | apply pure_bind; [|intros ?] ].

Ltac keeps_tac :=
  repeat first
    [ apply keeps_set_weight
    | apply keeps_inrank_update
    | apply keeps_zoom;
      first [ apply init_step_grows | apply reconcile_grows
            | apply update_moments_grows
            | apply (pure_keeps grows); solve [pure_tac]
            | apply (keeps_bind grows);
              [apply renew_projector_grows|intros ?; apply run_project_grows] ]
    | apply (pure_keeps (step_rel _ _)); solve [pure_tac]
    | apply (keeps_bind (step_rel _ _)); [|intros ?] ].

Lemma keeps_visit grads group i p :
  keeps (step_rel p (table_slot group i)) (visit grads group i p).
Proof.
  unfold visit, galore_project, apply_update, table_slot.
  destruct (grads p) as [| |grad]; [by apply pure_keeps..|].
  destruct (galore group) as [pa|]; keeps_tac.
  all: destruct (flt fzero (weight_decay group)); keeps_tac.
Qed.

(** *** The fuel of the loop is enough *)

Lemma fs_bind {S A B} (m : Op S A) (k : A -> Op S B) :
  fuel_suffices m -> (forall a, fuel_suffices (k a)) ->
  fuel_suffices (m ≫= k).
Proof.
  intros Hm Hk s s'. unfold mbind, Op_bind, bind.
  destruct (m s) as [a s1|e s1] eqn:E; [apply Hk|].
  intros [= -> ->]. by apply (Hm s s').
Qed.

Lemma fs_ret {S A} (a : A) : fuel_suffices (mret a : Op S A).
Proof. done. Qed.

Lemma fs_raise {S A} e : e ≠ OutOfFuel -> fuel_suffices (raise e : Op S A).
Proof. intros He s s' [= ? ?]. done. Qed.

Lemma fs_gets {S A} (f : S -> A) : fuel_suffices (gets f).
Proof. done. Qed.

Lemma fs_modify {S} (f : S -> S) : fuel_suffices (modify f).
Proof. done. Qed.

Lemma fs_need {S A} e (o : option A) :
  e ≠ OutOfFuel -> fuel_suffices (need e o : Op S A).
Proof. intros He. destruct o; [apply fs_ret|by apply fs_raise]. Qed.

Lemma fs_zoom {A} p (m : Op (PState M) A) :
  fuel_suffices m -> fuel_suffices (zoom p m).
Proof.
  intros Hm o o'. unfold zoom.
  destruct (m (state o !!! p)) as [a ps|e ps] eqn:E; [done|].
  intros [= -> _]. by apply (Hm _ _ E).
Qed.

Lemma fs_set_rank i r : fuel_suffices (set_rank (M:=M) i r).
Proof. intros o o'. unfold set_rank. by destruct (decide _). Qed.

Lemma fs_set_ratio i x : fuel_suffices (set_ratio (M:=M) i x).
Proof. intros o o'. unfold set_ratio. by destruct (decide _). Qed.

Lemma fs_grow_rank {S} k s : fuel_suffices (grow_rank (S:=S) k s).
Proof.
  intros st st'. unfold grow_rank.
  destruct (rank_loop_total k s) as (r & -> & _). done.
Qed.

Ltac fs_tac :=
  repeat first
    [ apply fs_ret | apply fs_gets | apply fs_modify | apply fs_set_rank
    | apply fs_set_ratio | apply fs_grow_rank
    | apply fs_need; discriminate | apply fs_raise; discriminate
    | apply fs_zoom
    | apply fs_bind; [|intros ?]
    | match goal with
      | |- fuel_suffices (match ?x with _ => _ end) => destruct x
      end ].

Lemma fs_visit grads group i p : fuel_suffices (visit grads group i p).
Proof.
  unfold visit, galore_project, apply_update, inrank_update, init_step,
    renew_projector, run_project, reconcile, update_moments, step_size,
    get_rank, item, set_weight, set_step, set_projector, set_exp_avg,
    set_exp_avg_sq.
  fs_tac.
Qed.

Lemma fs_visit_params grads group ps : forall i,
  fuel_suffices (visit_params grads group i ps).
Proof.
  induction ps as [|p ps IH]; intros i; simpl; [apply fs_ret|].
  apply fs_bind; [apply fs_visit|intros _; apply IH].
Qed.

Lemma fs_visit_groups grads gs : fuel_suffices (visit_groups grads gs).
Proof.
  induction gs as [|g gs IH]; simpl; [apply fs_ret|].
  apply fs_bind; [apply fs_visit_params|intros _; apply IH].
Qed.

(** A step never stops for want of fuel: the bound of the embedding on the
    rank-growth loop cuts no run short. *)
Lemma step_fuel_suffices {L} (closure : option L) grads :
  fuel_suffices (step closure grads).
Proof.
  unfold step. apply fs_bind; [apply fs_gets|intros gs].
  apply fs_bind; [apply fs_visit_groups|intros _; apply fs_ret].
Qed.

(** *** The loops of a step *)

Lemma keeps_visit_params {R : relation (Optimizer M)}
    `{!Reflexive R, !Transitive R} grads group ps : forall i,
  (forall j q, ps !! j = Some q -> keeps R (visit grads group (i + j) q)) ->
  keeps R (visit_params grads group i ps).
Proof.
  induction ps as [|p ps IH]; intros i H; simpl.
  { by apply pure_keeps. }
  apply (keeps_bind R).
  - specialize (H 0 p eq_refl). by rewrite Nat.add_0_r in H.
  - intros _. apply IH. intros j q Hj.
    replace (S i + j) with (i + S j) by lia. by apply H.
Qed.

Lemma keeps_visit_groups {R : relation (Optimizer M)}
    `{!Reflexive R, !Transitive R} grads gs :
  (forall g j q, g ∈ gs -> params g !! j = Some q ->
                 keeps R (visit grads g j q)) ->
  keeps R (visit_groups grads gs).
Proof.
  induction gs as [|g gs IH]; intros H; simpl.
  { by apply pure_keeps. }
  apply (keeps_bind R).
  - apply keeps_visit_params. intros j q Hj. simpl.
    apply H; [left|done].
  - intros _. apply IH. intros g' j q Hg. apply H. by right.
Qed.

Lemma keeps_step {R : relation (Optimizer M)}
    `{!Reflexive R, !Transitive R} {L} (closure : option L) grads o :
  (forall g j q, g ∈ param_groups o -> params g !! j = Some q ->
                 keeps R (visit grads g j q)) ->
  R o (final (step closure grads o)).
Proof.
  intros H. unfold step. op_unfold. simpl.
  pose proof (keeps_visit_groups grads (param_groups o) H o) as Hk.
  destruct (visit_groups grads (param_groups o) o); done.
Qed.

#[local] Instance evolves_refl : Reflexive evolves.
Proof. intros o. split_and!; done. Qed.

#[local] Instance evolves_trans : Transitive evolves.
Proof.
  intros x y z (G1 & R1 & W1) (G2 & R2 & W2). split_and!.
  - congruence.
  - eapply Forall2_trans; [|exact R1|exact R2]. intros; lia.
  - intros q. etrans; [apply W1|apply W2].
Qed.

Lemma step_evolves {L} (closure : option L) grads o :
  evolves o (final (step closure grads o)).
Proof.
  apply keeps_step. intros g j q _ _ o1.
  destruct (keeps_visit grads g j q o1). by split_and!.
Qed.

#[local] Instance untouched_refl p : Reflexive (untouched p).
Proof. by intros o. Qed.

#[local] Instance untouched_trans p : Transitive (untouched p).
Proof. intros x y z [? ?] [? ?]. split; congruence. Qed.

#[local] Instance same_slot_refl i : Reflexive (same_slot i).
Proof. by intros o. Qed.

#[local] Instance same_slot_trans i : Transitive (same_slot i).
Proof. intros x y z [? ?] [? ?]. split; congruence. Qed.

Lemma visit_not_dense grads group i p (o : Optimizer M) :
  (forall g, grads p ≠ GDense g) ->
  final (visit grads group i p o) = o.
Proof.
  intros H. unfold visit. destruct (grads p) as [| |g]; [done..|].
  by destruct (H g).
Qed.

Lemma visit_untouched grads p group i q :
  (forall g, grads p ≠ GDense g) ->
  keeps (untouched p) (visit grads group i q).
Proof.
  intros H o. destruct (decide (q = p)) as [->|Hne].
  - by rewrite visit_not_dense.
  - destruct (keeps_visit grads group i q o). split; auto.
Qed.

Lemma step_untouched {L} (closure : option L) grads p o :
  (forall g, grads p ≠ GDense g) ->
  untouched p o (final (step closure grads o)).
Proof.
  intros H. apply keeps_step. intros g j q _ _.
  by apply visit_untouched.
Qed.

(** The visits before a sparse gradient decide what the caller sees: an
    exception in any case, and the one of line 104 if they all went
    through. *)
Lemma visit_params_sparse grads group p post pre : forall i o,
  grads p = GSparse ->
  (exists e o', visit_params grads group i (pre ++ p :: post) o
                = Raised e o') /\
  (forall o1, visit_params grads group i pre o = Done tt o1 ->
     visit_params grads group i (pre ++ p :: post) o
     = Raised SparseGradient o1).
Proof.
  induction pre as [|q pre IH]; intros i o Hp; simpl.
  - unfold mbind, Op_bind, bind, visit. rewrite Hp. simpl.
    split; [by eauto|]. by intros o1 [= <-].
  - unfold mbind, Op_bind, bind.
    destruct (visit grads group i q o) as [[] o2|e o2].
    + apply IH. done.
    + split; [by eauto|done].
Qed.

Lemma visit_groups_sparse grads g p pre post gpost gpre : forall o,
  grads p = GSparse ->
  params g = pre ++ p :: post ->
  (exists e o', visit_groups grads (gpre ++ g :: gpost) o = Raised e o') /\
  (forall o0 o1, visit_groups grads gpre o = Done tt o0 ->
     visit_params grads g 0 pre o0 = Done tt o1 ->
     visit_groups grads (gpre ++ g :: gpost) o = Raised SparseGradient o1).
Proof.
  induction gpre as [|g' gpre IH]; intros o Hp Hg; simpl.
  - unfold mbind, Op_bind, bind. rewrite Hg.
    destruct (visit_params_sparse grads g p post pre 0 o Hp)
      as [(e & o' & He) Hs].
    split.
    + rewrite He. eauto.
    + intros o0 o1 [= <-] H1. by rewrite (Hs _ H1).
  - unfold mbind, Op_bind, bind.
    destruct (visit_params grads g' 0 (params g') o) as [[] o2|e o2].
    + by apply IH.
    + split; [by eauto|done].
Qed.

(** ** The Rank Table *)

Lemma init_ranks groups lr betas eps wd cb w (o : Optimizer M) :
  init groups lr betas eps wd cb w = inr o ->
  exists g, galore_group (param_groups o) = Some g /\
    param_ranks o = replicate (length (params g)) 2.
Proof.
  unfold init. intros H.
  repeat (destruct (negb _); [done|]).
  destruct (galore_group _) as [g|] eqn:Hg; [|done].
  simplify_eq. simpl. eauto.
Qed.

Lemma Forall2_le_lookup (l k : list nat) i r :
  Forall2 le l k -> l !! i = Some r ->
  exists r', k !! i = Some r' /\ r <= r'.
Proof. intros H Hi. by eapply Forall2_lookup_l. Qed.

Lemma lifetime_ranks gl : forall (o : Optimizer M),
  Forall2 le (param_ranks o) (param_ranks (lifetime gl o)).
Proof.
  induction gl as [|grads gl IH]; intros o; simpl; [done|].
  eapply Forall2_trans; [|apply (step_evolves (L:=unit) None grads o)|apply IH].
  intros; lia.
Qed.

(** C2: the constructor sets the rank of every parameter of the projection
    group to 2; a step, however it ends, leaves every entry of the Rank
    Table at least as large as it was, and so does any sequence of steps. *)
Theorem rank_starts_at_two_and_never_decreases :
  (forall groups lr betas eps wd cb w (o : Optimizer M),
     init groups lr betas eps wd cb w = inr o ->
     exists g, galore_group (param_groups o) = Some g /\
       param_ranks o = replicate (length (params g)) 2) /\
  (forall L (closure : option L) grads (o : Optimizer M) i r,
     param_ranks o !! i = Some r ->
     exists r', param_ranks (final (step closure grads o)) !! i = Some r' /\
       r <= r') /\
  (forall gl (o : Optimizer M) i r,
     param_ranks o !! i = Some r ->
     exists r', param_ranks (lifetime gl o) !! i = Some r' /\ r <= r').
Proof.
  split_and!.
  - apply init_ranks.
  - intros L closure grads o i r Hi.
    eapply Forall2_le_lookup; [|done]. apply step_evolves.
  - intros gl o i r Hi.
    eapply Forall2_le_lookup; [|done]. apply lifetime_ranks.
Qed.

(** ** Gradients that are sparse or absent *)

(** C7: a sparse gradient makes the visit of its parameter raise the
    RuntimeError of line 104 before anything is written.  Nothing catches
    it: the step ends with an exception, the dictionary and the tensor of
    that parameter being what they were before the step; and when the
    visits that come before went through, the exception is that
    RuntimeError. *)
Theorem sparse_gradient_raises {L} (closure : option L) grads
    (o : Optimizer M) g p pre post gpre gpost :
  grads p = GSparse ->
  param_groups o = gpre ++ g :: gpost ->
  params g = pre ++ p :: post ->
  (forall group i o1, visit grads group i p o1 = Raised SparseGradient o1) /\
  (exists e o', step closure grads o = Raised e o' /\
     state o' !!! p = state o !!! p /\ weights o' p = weights o p) /\
  (forall o0 o1, visit_groups grads gpre o = Done tt o0 ->
     visit_params grads g 0 pre o0 = Done tt o1 ->
     step closure grads o = Raised SparseGradient o1).
Proof.
  intros Hp Hgs Hg.
  destruct (visit_groups_sparse grads g p pre post gpost gpre o Hp Hg)
    as [(e & o' & He) Hs].
  split_and!.
  - intros group i o1. unfold visit. by rewrite Hp.
  - assert (untouched p o (final (step closure grads o))) as [H1 H2].
    { apply step_untouched. intros t. by rewrite Hp. }
    exists e, o'. revert H1 H2. unfold step. op_unfold. simpl.
    rewrite Hgs, He. done.
  - intros o0 o1 H0 H1. unfold step. op_unfold. simpl.
    by rewrite Hgs, (Hs o0 o1 H0 H1).
Qed.

(** C10: a parameter without a gradient is skipped.  Its visit returns at
    once and changes nothing; after the step its dictionary and its tensor
    are what they were; and when no group other than its own carries a
    rank, so are the entries of the two tables at its position. *)
Theorem absent_gradient_skipped {L} (closure : option L) grads
    (o : Optimizer M) p :
  grads p = GNone ->
  (forall group i o1, visit grads group i p o1 = Done tt o1) /\
  (state (final (step closure grads o)) !!! p = state o !!! p /\
   weights (final (step closure grads o)) p = weights o p) /\
  (forall g i,
     (forall g', g' ∈ param_groups o -> is_Some (galore g') -> g' = g) ->
     params g !! i = Some p ->
     param_ranks (final (step closure grads o)) !! i = param_ranks o !! i /\
     current_explained_ratios (final (step closure grads o)) !! i =
       current_explained_ratios o !! i).
Proof.
  intros Hp. split; [|split].
  - intros group i o1. unfold visit. by rewrite Hp.
  - apply step_untouched. intros t. by rewrite Hp.
  - intros g i Hone Hi.
    change (same_slot i o (final (step closure grads o))).
    apply keeps_step. intros g' j q Hg' Hq o1.
    destruct (decide (table_slot g' j = Some i)) as [Hs|Hs].
    + unfold table_slot in Hs.
      destruct (galore g') eqn:Hga; [|done]. simplify_eq.
      assert (g' = g) as -> by (apply Hone; [done|by rewrite Hga]).
      simplify_eq. rewrite visit_not_dense; [done|].
      intros t. by rewrite Hp.
    + destruct (keeps_visit grads g' j q o1). split; auto.
Qed.

(** ** The moment buffers *)

Lemma entry_rect t i j :
  rect t -> i < nrows t -> j < ncols t -> is_Some (entry t i j).
Proof.
  intros Hr Hi Hj. unfold entry.
  destruct (lookup_lt_is_Some_2 (cells t) i Hi) as [row Hrow].
  rewrite Hrow. simpl. apply lookup_lt_is_Some_2.
  unfold rect in Hr. rewrite Forall_lookup in Hr.
  by rewrite (Hr i row Hrow).
Qed.

Lemma entry_pad_rows_old d t i j :
  i < nrows t -> entry (pad_rows d t) i j = entry t i j.
Proof. intros Hi. unfold entry. simpl. by rewrite lookup_app_l. Qed.

Lemma entry_pad_rows_new d t i j :
  nrows t <= i < nrows t + d -> j < ncols t ->
  entry (pad_rows d t) i j = Some fzero.
Proof.
  intros Hi Hj. unfold entry. simpl. rewrite lookup_app_r by (apply Hi).
  rewrite lookup_replicate_2 by (unfold nrows in Hi; lia). simpl.
  by rewrite lookup_replicate_2.
Qed.

Lemma entry_pad_cols_old d t i j :
  rect t -> j < ncols t -> entry (pad_cols d t) i j = entry t i j.
Proof.
  intros Hr Hj. unfold entry. simpl. rewrite list_lookup_fmap.
  destruct (cells t !! i) as [row|] eqn:Hrow; simpl; [|done].
  unfold rect in Hr. rewrite Forall_lookup in Hr.
  rewrite lookup_app_l; [done|]. by rewrite (Hr i row Hrow).
Qed.

Lemma entry_pad_cols_new d t i j :
  rect t -> i < nrows t -> ncols t <= j < ncols t + d ->
  entry (pad_cols d t) i j = Some fzero.
Proof.
  intros Hr Hi Hj. unfold entry. simpl. rewrite list_lookup_fmap.
  destruct (lookup_lt_is_Some_2 (cells t) i Hi) as [row Hrow].
  rewrite Hrow. simpl.
  unfold rect in Hr. rewrite Forall_lookup in Hr.
  specialize (Hr i row Hrow). simpl in Hr.
  rewrite lookup_app_r by lia. apply lookup_replicate_2. lia.
Qed.

Lemma rank_dim_cases grad : rank_dim grad = 0 \/ rank_dim grad = 1.
Proof. unfold rank_dim. destruct (decide _); auto. Qed.

Lemma pad_padded rd r t :
  rd = 0 \/ rd = 1 -> rect t -> size t rd < r ->
  padded rd r t (pad rd (r - size t rd) t).
Proof.
  intros Hrd Hr Hlt. unfold padded. split_and!.
  - rewrite size_pad_rank. lia.
  - destruct Hrd as [-> | ->]; unfold pad, size, nrows; simpl; [done|].
    by rewrite length_map.
  - apply pad_no_smaller.
  - intros i j Hi Hj. split; [by apply entry_rect|].
    destruct Hrd as [-> | ->]; unfold pad; simpl.
    + by apply entry_pad_rows_old.
    + by apply entry_pad_cols_old.
  - destruct Hrd as [-> | ->]; unfold pad, size in *; simpl in *.
    + intros i j Hi Hj Hn. unfold nrows in Hi. simpl in Hi.
      rewrite length_app, length_replicate in Hi.
      apply entry_pad_rows_new; [|done]. unfold nrows in *. lia.
    + intros i j Hi Hj Hn. unfold nrows in Hi. simpl in Hi.
      rewrite length_map in Hi.
      apply entry_pad_cols_new; [done|done|]. unfold nrows in *. lia.
Qed.

(** C4: when the rank of a parameter exceeds the size of its existing
    moment buffers along the rank dimension, reconciliation replaces both
    buffers by themselves padded with zeros at the end of that axis, up to
    the rank; the rest of the dictionary is as before. *)
Theorem growth_pads_with_zeros group pa ranks i grad (ps : PState M) a b r :
  galore group = Some pa ->
  st_exp_avg ps = Some a -> st_exp_avg_sq ps = Some b ->
  rect a -> rect b -> same_shape a b ->
  ranks !! i = Some r ->
  size a (rank_dim grad) < r ->
  exists a' b',
    reconcile group ranks i grad ps =
      Done tt (mkPState (st_step ps) (st_projector ps) (Some a') (Some b')) /\
    padded (rank_dim grad) r a a' /\
    padded (rank_dim grad) r b b'.
Proof.
  intros Hg Ha Hb Hra Hrb [Hs1 Hs2] Hi Hlt.
  assert (size b (rank_dim grad) = size a (rank_dim grad)) as Hsz.
  { unfold size. destruct (decide _); done. }
  exists (pad (rank_dim grad) (r - size a (rank_dim grad)) a),
    (pad (rank_dim grad) (r - size a (rank_dim grad)) b).
  split_and!.
  - unfold reconcile. op_unfold. simpl. rewrite Ha, Hg, Hi. simpl.
    rewrite decide_True by done. simpl. by rewrite Hb.
  - apply pad_padded; [apply rank_dim_cases|done..].
  - rewrite <- Hsz. apply pad_padded; [apply rank_dim_cases|done|lia].
Qed.

(** C5: with both moment buffers there and a rank that does not exceed
    their size along the rank dimension, reconciliation changes nothing,
    so that running it twice leaves what running it once leaves. *)
Theorem reconcile_idempotent group ranks i grad (ps : PState M) a b r :
  st_exp_avg ps = Some a -> st_exp_avg_sq ps = Some b ->
  ranks !! i = Some r ->
  r <= size a (rank_dim grad) ->
  reconcile group ranks i grad ps = Done tt ps /\
  (reconcile group ranks i grad;; reconcile group ranks i grad) ps =
    reconcile group ranks i grad ps.
Proof.
  intros Ha Hb Hi Hle.
  assert (reconcile group ranks i grad ps = Done tt ps) as H.
  { unfold reconcile. op_unfold. simpl. rewrite Ha.
    destruct (galore group); [|done]. rewrite Hi. simpl.
    by rewrite decide_False by lia. }
  split; [done|]. unfold mbind, Op_bind, bind. by rewrite H.
Qed.

(** *** The two buffers of a parameter have one shape *)

#[local] Instance carries_refl {S} (P : S -> Prop) : Reflexive (carries P).
Proof. intros s Hs. exact Hs. Qed.

#[local] Instance carries_trans {S} (P : S -> Prop) : Transitive (carries P).
Proof. intros x y z Hxy Hyz Hx. apply Hyz, Hxy, Hx. Qed.

Lemma same_shape_pad rd d a b :
  rd = 0 \/ rd = 1 -> same_shape a b -> same_shape (pad rd d a) (pad rd d b).
Proof.
  intros Hrd [H1 H2].
  destruct Hrd as [-> | ->]; unfold same_shape, pad, nrows in *; simpl.
  - by rewrite !length_app, !length_replicate, H1.
  - by rewrite !length_map, H1, H2.
Qed.

Lemma init_step_coherent : keeps (carries coherent) init_step.
Proof.
  intros ps Hc. unfold init_step. op_unfold. simpl.
  destruct (st_step ps); exact Hc.
Qed.

Lemma renew_projector_coherent r pa :
  keeps (carries coherent) (renew_projector r pa).
Proof.
  intros ps Hc. unfold renew_projector. op_unfold. simpl.
  destruct (st_projector ps) as [pr|]; simpl; [|exact Hc].
  destruct (decide _); exact Hc.
Qed.

Lemma run_project_coherent grad :
  keeps (carries coherent) (run_project grad).
Proof.
  intros ps Hc. unfold run_project. op_unfold. simpl.
  destruct (st_projector ps) as [pr|]; simpl; [|exact Hc].
  destruct (st_step ps) as [t|]; simpl; [|exact Hc].
  destruct (project pr grad t) as [[low m]|]; simpl; exact Hc.
Qed.

Lemma reconcile_coherent group ranks i grad :
  keeps (carries coherent) (reconcile group ranks i grad).
Proof.
  intros ps Hc. unfold reconcile. op_unfold. simpl.
  destruct (st_exp_avg ps) as [a|] eqn:Ha; simpl.
  - destruct (Hc a Ha) as (b & Hb & Hs).
    destruct (galore group); simpl; [|exact Hc].
    destruct (ranks !! i) as [r|]; simpl; [|exact Hc].
    destruct (decide _); simpl; [|exact Hc].
    rewrite Hb. simpl. intros a' [= <-]. eexists. split; [done|].
    apply same_shape_pad; [apply rank_dim_cases|done].
  - intros a' [= <-]. by eexists.
Qed.

Lemma update_moments_coherent group grad :
  keeps (carries coherent) (update_moments group grad).
Proof.
  intros ps Hc. unfold update_moments. op_unfold. simpl.
  destruct (st_exp_avg ps) as [a|] eqn:Ha; simpl; [|exact Hc].
  destruct (Hc a Ha) as (b & Hb & [Hs1 Hs2]). rewrite Hb. simpl.
  destruct (st_step ps) as [t|]; simpl; [|exact Hc].
  destruct (tzip_ _ (tmap _ a) grad) as [a'|] eqn:Ea; simpl.
  - apply tzip__shape in Ea as [Ea1 Ea2]. rewrite nrows_tmap in Ea1.
    simpl in Ea2.
    destruct (tzip_ _ (tmap _ b) grad) as [b'|] eqn:Eb; simpl.
    + apply tzip__shape in Eb as [Eb1 Eb2]. rewrite nrows_tmap in Eb1.
      simpl in Eb2. intros x [= <-]. eexists. split; [done|].
      split; congruence.
    + intros x [= <-]. eexists. split; [done|].
      split; [rewrite nrows_tmap|simpl]; congruence.
  - intros x [= <-]. eexists. split; [done|].
    split; [by rewrite nrows_tmap|done].
Qed.

Lemma keeps_zoom_coherent {A} p (m : Op (PState M) A) :
  keeps (carries coherent) m -> keeps (carries all_coherent) (zoom p m).
Proof.
  intros Hm o Hc q. unfold zoom. specialize (Hm (state o !!! p) (Hc p)).
  destruct (m (state o !!! p)) as [a ps|e ps]; simpl in *.
  all: destruct (decide (q = p)) as [->|Hne];
    [by rewrite lookup_total_insert_eq
    |rewrite lookup_total_insert_ne by done; apply Hc].
Qed.

Lemma inrank_update_state i grad (o : Optimizer M) :
  state (final (inrank_update i grad o)) = state o.
Proof.
  unfold inrank_update, get_rank, grow_rank, set_ratio, set_rank.
  op_unfold. simpl. destruct (param_ranks o !! i); simpl; [|done].
  destruct (rank_loop _ _ _); simpl; [|done].
  destruct (decide _); simpl; [|done].
  by destruct (decide _).
Qed.

Lemma keeps_inrank_update_coherent i grad :
  keeps (carries all_coherent) (inrank_update i grad).
Proof. intros o Hc q. rewrite inrank_update_state. apply Hc. Qed.

Lemma keeps_set_weight_coherent p t :
  keeps (carries all_coherent) (set_weight p t).
Proof. intros o Hc. exact Hc. Qed.

Lemma keeps_visit_coherent grads group i p :
  keeps (carries all_coherent) (visit grads group i p).
Proof.
  unfold visit, galore_project, apply_update.
  destruct (grads p) as [| |grad];
    [apply (pure_keeps (carries all_coherent)); solve [pure_tac]..|].
  destruct (galore group), (flt fzero (weight_decay group)).
  all: repeat first
    [ apply keeps_zoom_coherent;
      first [ apply init_step_coherent | apply reconcile_coherent
            | apply update_moments_coherent
            | apply (pure_keeps (carries coherent)); solve [pure_tac]
            | apply (keeps_bind (carries coherent));
              [apply renew_projector_coherent
              |intros ?; apply run_project_coherent] ]
    | apply (pure_keeps (carries all_coherent)); solve [pure_tac]
    | apply keeps_inrank_update_coherent
    | apply keeps_set_weight_coherent
    | apply (keeps_bind (carries all_coherent)); [|intros ?] ].
Qed.

(** The optimizer that the constructor returns has coherent dictionaries,
    and a step, however it ends, keeps them so. *)
Lemma coherent_invariant :
  (forall groups lr betas eps wd cb w (o : Optimizer M),
     init groups lr betas eps wd cb w = inr o -> all_coherent o) /\
  (forall L (closure : option L) grads (o : Optimizer M),
     all_coherent o -> all_coherent (final (step closure grads o))).
Proof.
  split.
  - intros groups lr betas eps wd cb w o. unfold init.
    repeat (destruct (negb _); [done|]).
    destruct (galore_group _); [|done]. intros [= <-] q. simpl.
    rewrite lookup_total_empty. by intros a.
  - intros L closure grads o.
    apply (keeps_step (R:=carries all_coherent)).
    intros g j q _ _. apply keeps_visit_coherent.
Qed.

(** *** A visit that goes through, step by step *)

Lemma bind_done {S A B} (m : Op S A) (k : A -> Op S B) s b s' :
  (m ≫= k) s = Done b s' ->
  exists a s1, m s = Done a s1 /\ k a s1 = Done b s'.
Proof.
  unfold mbind, Op_bind, bind. destruct (m s) as [a s1|]; [|done]. eauto.
Qed.

Lemma pure_done {S A} (m : Op S A) s a s' :
  pure m -> m s = Done a s' -> s' = s.
Proof. intros Hm H. specialize (Hm s). by rewrite H in Hm. Qed.

Lemma zoom_done {A} p (m : Op (PState M) A) o a o' :
  zoom p m o = Done a o' ->
  exists ps, m (state o !!! p) = Done a ps /\
    o' = mkOptimizer (param_groups o) (param_ranks o)
           (current_explained_ratios o) (<[p := ps]> (state o)) (weights o).
Proof.
  unfold zoom. destruct (m (state o !!! p)) as [a' ps|]; [|done].
  intros [= <- <-]. eauto.
Qed.

#[local] Instance same_buffers_refl : Reflexive same_buffers.
Proof. by intros ps. Qed.

#[local] Instance same_buffers_trans : Transitive same_buffers.
Proof. intros x y z [? ?] [? ?]. split; congruence. Qed.

Ltac same_tac :=
  intros ps; op_unfold; simpl; op_cases; by split.

Lemma init_step_same : keeps same_buffers init_step.
Proof. unfold init_step. same_tac. Qed.

Lemma renew_projector_same r pa : keeps same_buffers (renew_projector r pa).
Proof. unfold renew_projector. same_tac. Qed.

Lemma run_project_same grad : keeps same_buffers (run_project grad).
Proof. unfold run_project. same_tac. Qed.

#[local] Instance tail_rel_refl p : Reflexive (tail_rel p).
Proof. by intros o. Qed.

#[local] Instance tail_rel_trans p : Transitive (tail_rel p).
Proof. intros x y z [? ?] [? ?]. split; [congruence|by etrans]. Qed.

Lemma keeps_zoom_tail {A} p (m : Op (PState M) A) :
  keeps same_buffers m -> keeps (tail_rel p) (zoom p m).
Proof.
  intros Hm o. unfold zoom. specialize (Hm (state o !!! p)).
  destruct (m (state o !!! p)) as [a ps|e ps]; simpl in *.
  all: split; simpl; [done|by rewrite lookup_total_insert_eq].
Qed.

Lemma keeps_set_weight_tail p t : keeps (tail_rel p) (set_weight p t).
Proof. by intros o. Qed.

Lemma keeps_apply_update group p m :
  keeps (tail_rel p) (apply_update group p m).
Proof.
  unfold apply_update.
  destruct (galore group), (flt fzero (weight_decay group)).
  all: repeat first
    [ apply keeps_set_weight_tail
    | apply keeps_zoom_tail, (pure_keeps same_buffers); solve [pure_tac]
    | apply (pure_keeps (tail_rel _)); solve [pure_tac]
    | apply (keeps_bind (tail_rel _)); [|intros ?] ].
Qed.

Lemma get_rank_done i (o : Optimizer M) r o' :
  get_rank i o = Done r o' -> o' = o /\ param_ranks o !! i = Some r.
Proof.
  unfold get_rank. op_unfold. simpl.
  destruct (param_ranks o !! i); [|done]. by intros [= <- <-].
Qed.

Lemma inrank_update_done i grad (o o' : Optimizer M) :
  inrank_update i grad o = Done tt o' ->
  state o' = state o /\
  exists r0 r, param_ranks o !! i = Some r0 /\ r0 <= r /\
    param_ranks o' = <[i := r]> (param_ranks o).
Proof.
  intros H.
  destruct (param_ranks o !! i) as [r0|] eqn:Hi; cycle 1.
  { unfold inrank_update, get_rank in H. op_unfold. simpl in H.
    by rewrite Hi in H. }
  destruct (decide (i < length (current_explained_ratios o)))
    as [Hlen|Hlen]; cycle 1.
  { unfold inrank_update, get_rank, grow_rank, set_ratio in H.
    op_unfold. simpl in H. rewrite Hi in H. simpl in H.
    destruct (rank_loop _ _ _); simpl in H; [|done].
    by rewrite decide_False in H by done. }
  destruct (inrank_update_spec i grad o r0 Hi Hlen) as (r & _ & Hr & Heq).
  rewrite Heq in H. simplify_eq. simpl. split; [done|].
  by exists r0, r.
Qed.

Lemma run_project_done grad (ps : PState M) low ps' :
  run_project grad ps = Done low ps' ->
  exists pr t mem, st_projector ps = Some pr /\
    project pr grad t = Some (low, mem).
Proof.
  unfold run_project. op_unfold. simpl.
  destruct (st_projector ps) as [pr|]; [|done]. simpl.
  destruct (st_step ps) as [t|]; [|done]. simpl.
  destruct (project pr grad t) as [[low' mem]|] eqn:Hpr; [|done]. simpl.
  intros [= <- <-]. eauto.
Qed.

Lemma renew_projector_done r pa (ps ps' : PState M) :
  renew_projector r pa ps = Done tt ps' ->
  exists pr, st_projector ps' = Some pr /\ p_rank pr = r.
Proof.
  unfold renew_projector. op_unfold. simpl.
  destruct (st_projector ps) as [pr|] eqn:Hpr; simpl.
  - destruct (decide (r ≠ p_rank pr)) as [|Heq]; simpl.
    + intros [= <-]. simpl. eauto.
    + intros [= <-]. exists pr. split; [done|].
      destruct (decide (r = p_rank pr)); [done|]. by destruct Heq.
  - intros [= <-]. simpl. eauto.
Qed.

Lemma update_moments_done group grad (ps : PState M) m ps' :
  update_moments group grad ps = Done m ps' ->
  exists a b a' b',
    st_exp_avg ps = Some a /\ st_exp_avg_sq ps = Some b /\
    st_exp_avg ps' = Some a' /\ st_exp_avg_sq ps' = Some b' /\
    same_shape a a' /\ same_shape b b'.
Proof.
  unfold update_moments. op_unfold. simpl.
  destruct (st_exp_avg ps) as [a|]; [|done]. simpl.
  destruct (st_exp_avg_sq ps) as [b|]; [|done]. simpl.
  destruct (st_step ps) as [t|]; [|done]. simpl.
  destruct (tzip_ _ (tmap _ a) grad) as [a'|] eqn:Ha; [|done]. simpl.
  destruct (tzip_ _ (tmap _ b) grad) as [b'|] eqn:Hb; [|done]. simpl.
  intros [= <- <-]. simpl. exists a, b, a', b'.
  apply tzip__shape in Ha, Hb. rewrite nrows_tmap in Ha, Hb.
  simpl in Ha, Hb. unfold same_shape. split_and!; try done; lia.
Qed.

(** A visit of a parameter of the projection group that goes through:
    the rank [r] it leaves in the table, the projector and the reduced
    gradient [low], the dictionary [ps2] that goes into reconciliation and
    the one [ps3] that comes out of it, whose buffers have the shapes of
    the final ones. *)
Lemma visit_done grads group pa i p grad (o o' : Optimizer M) :
  grads p = GDense grad -> galore group = Some pa ->
  visit grads group i p o = Done tt o' ->
  exists r pr t low mem ranks ps2 ps3,
    param_ranks o' !! i = Some r /\
    p_rank pr = r /\ project pr grad t = Some (low, mem) /\
    same_buffers (state o !!! p) ps2 /\
    ranks !! i = Some r /\
    reconcile group ranks i low ps2 = Done tt ps3 /\
    exists a3 b3 a' b',
      st_exp_avg ps3 = Some a3 /\ st_exp_avg_sq ps3 = Some b3 /\
      st_exp_avg (state o' !!! p) = Some a' /\
      st_exp_avg_sq (state o' !!! p) = Some b' /\
      same_shape a3 a' /\ same_shape b3 b'.
Proof.
  intros Hp Hg H. unfold visit in H. rewrite Hp in H.
  apply bind_done in H as ([] & o1 & H1 & H).
  apply zoom_done in H1 as (ps1 & H1 & ->).
  pose proof (init_step_same (state o !!! p)) as Hs1.
  rewrite H1 in Hs1. simpl in Hs1.
  apply bind_done in H as (low & o2 & H2 & H).
  unfold galore_project in H2. rewrite Hg in H2.
  apply bind_done in H2 as ([] & o1a & Hu & H2).
  apply inrank_update_done in Hu as (Hst & _).
  apply bind_done in H2 as (r & o1b & Hr & H2).
  apply get_rank_done in Hr as (-> & Hr).
  apply zoom_done in H2 as (ps2 & H2 & ->).
  rewrite Hst in H2. simpl in H2. rewrite lookup_total_insert_eq in H2.
  apply bind_done in H2 as ([] & ps1a & Hn & H2).
  pose proof (renew_projector_same r pa ps1) as Hs2.
  rewrite Hn in Hs2. simpl in Hs2.
  apply renew_projector_done in Hn as (pr & Hpr & Hrk).
  pose proof (run_project_same grad ps1a) as Hs3.
  rewrite H2 in Hs3. simpl in Hs3.
  apply run_project_done in H2 as (pr' & t & mem & Hpr' & Hproj).
  rewrite Hpr in Hpr'. simplify_eq.
  apply bind_done in H as (ranks & o2' & Hget & H).
  unfold gets in Hget. simplify_eq. simpl in H.
  apply bind_done in H as ([] & o3 & H3 & H).
  apply zoom_done in H3 as (ps3 & H3 & ->). simpl in H3.
  rewrite lookup_total_insert_eq in H3.
  apply bind_done in H as (m & o4 & H4 & H).
  apply zoom_done in H4 as (ps4 & H4 & ->). simpl in H4.
  rewrite lookup_total_insert_eq in H4.
  apply update_moments_done in H4
    as (a3 & b3 & a' & b' & Ha3 & Hb3 & Ha' & Hb' & Hsa & Hsb).
  match type of H with
  | _ ?st = _ => pose proof (keeps_apply_update group p m st) as Ht
  end.
  rewrite H in Ht. simpl in Ht. destruct Ht as [Hranks [Hta Htb]].
  simpl in Hranks, Hta, Htb. rewrite lookup_total_insert_eq in Hta, Htb.
  exists (p_rank pr'), pr', t, low, mem, (param_ranks o1a), ps2, ps3.
  split_and!; try done.
  - by rewrite Hranks.
  - etrans; [|exact Hs3]. etrans; [exact Hs1|exact Hs2].
  - exists a3, b3, a', b'. split_and!; try done; congruence.
Qed.

Lemma size_same_shape a b d : same_shape a b -> size b d = size a d.
Proof. intros [? ?]. unfold size. by destruct (decide _). Qed.

Lemma reconcile_done_existing group pa ranks i low (ps ps' : PState M)
    a b r :
  galore group = Some pa ->
  st_exp_avg ps = Some a -> st_exp_avg_sq ps = Some b -> same_shape a b ->
  ranks !! i = Some r ->
  reconcile group ranks i low ps = Done tt ps' ->
  exists a3 b3,
    st_exp_avg ps' = Some a3 /\ st_exp_avg_sq ps' = Some b3 /\
    same_shape a3 b3 /\
    r <= size a3 (rank_dim low) /\ r <= size b3 (rank_dim low) /\
    no_smaller a a3 /\ no_smaller b b3.
Proof.
  intros Hg Ha Hb Hs Hi. unfold reconcile. op_unfold. simpl.
  rewrite Ha, Hg, Hi. simpl.
  pose proof (size_same_shape a b (rank_dim low) Hs) as Hsz.
  destruct (decide (size a (rank_dim low) < r)) as [Hlt|Hge]; simpl.
  - rewrite Hb. simpl. intros [= <-]. simpl.
    eexists _, _. split_and!; try done.
    + destruct Hs as [Hs1 Hs2].
      destruct (rank_dim_cases low) as [-> | ->];
        unfold same_shape, pad, nrows in *; simpl.
      * by rewrite !length_app, !length_replicate, Hs1.
      * by rewrite !length_map, Hs1, Hs2.
    + rewrite size_pad_rank. lia.
    + rewrite size_pad_rank. lia.
    + apply pad_no_smaller.
    + apply pad_no_smaller.
  - intros [= <-]. exists a, b. split_and!; try done; lia.
Qed.

Lemma reconcile_done_fresh group ranks i low (ps ps' : PState M) :
  st_exp_avg ps = None ->
  reconcile group ranks i low ps = Done tt ps' ->
  st_exp_avg ps' = Some (zeros_like low) /\
  st_exp_avg_sq ps' = Some (zeros_like low).
Proof.
  intros Ha. unfold reconcile. op_unfold. simpl. rewrite Ha. simpl.
  by intros [= <-].
Qed.

(** C3 (as amended): the visit of a parameter of the projection group that
    goes through leaves both moment buffers at least as large as the rank
    along the rank dimension when the parameter had its buffers before
    the visit.  The rank dimension is the one of line 141: axis 0 when the
    reduced gradient has fewer rows than columns, axis 1 otherwise.  The
    visit that allocates the buffers gives them the shape of the reduced
    gradient, whatever the rank.  And over a step, however it ends, the
    buffers of a parameter stay and neither of their axes shrinks. *)
Theorem buffers_cover_rank_once_allocated :
  (forall grads group pa i p grad (o o' : Optimizer M) a b,
     grads p = GDense grad -> galore group = Some pa ->
     st_exp_avg (state o !!! p) = Some a ->
     st_exp_avg_sq (state o !!! p) = Some b ->
     same_shape a b ->
     visit grads group i p o = Done tt o' ->
     exists r pr t low mem a' b',
       param_ranks o' !! i = Some r /\
       p_rank pr = r /\ project pr grad t = Some (low, mem) /\
       st_exp_avg (state o' !!! p) = Some a' /\
       st_exp_avg_sq (state o' !!! p) = Some b' /\
       r <= size a' (rank_dim low) /\ r <= size b' (rank_dim low) /\
       no_smaller a a' /\ no_smaller b b') /\
  (forall grads group pa i p grad (o o' : Optimizer M),
     grads p = GDense grad -> galore group = Some pa ->
     st_exp_avg (state o !!! p) = None ->
     visit grads group i p o = Done tt o' ->
     exists pr t low mem a' b',
       project pr grad t = Some (low, mem) /\
       st_exp_avg (state o' !!! p) = Some a' /\
       st_exp_avg_sq (state o' !!! p) = Some b' /\
       same_shape low a' /\ same_shape low b') /\
  (forall L (closure : option L) grads (o : Optimizer M) q a b,
     st_exp_avg (state o !!! q) = Some a ->
     st_exp_avg_sq (state o !!! q) = Some b ->
     exists a' b',
       st_exp_avg (state (final (step closure grads o)) !!! q) = Some a' /\
       st_exp_avg_sq (state (final (step closure grads o)) !!! q) = Some b' /\
       no_smaller a a' /\ no_smaller b b').
Proof.
  split_and!.
  - intros grads group pa i p grad o o' a b Hp Hg Ha Hb Hs H.
    destruct (visit_done grads group pa i p grad o o' Hp Hg H)
      as (r & pr & t & low & mem & ranks & ps2 & ps3 & Hr & Hrk & Hproj &
          [Ha2 Hb2] & Hi & Hrec & a3 & b3 & a' & b' & Ha3 & Hb3 & Ha' &
          Hb' & Hsa & Hsb).
    rewrite Ha in Ha2. rewrite Hb in Hb2.
    destruct (reconcile_done_existing group pa ranks i low ps2 ps3 a b r
                Hg Ha2 Hb2 Hs Hi Hrec)
      as (a3' & b3' & Ha3' & Hb3' & _ & Hra & Hrb & Hna & Hnb).
    simplify_eq.
    exists (p_rank pr), pr, t, low, mem, a', b'.
    rewrite (size_same_shape _ _ _ Hsa), (size_same_shape _ _ _ Hsb).
    destruct Hsa as [? ?], Hsb as [? ?], Hna as [? ?], Hnb as [? ?].
    unfold no_smaller. split_and!; try done; lia.
  - intros grads group pa i p grad o o' Hp Hg Ha H.
    destruct (visit_done grads group pa i p grad o o' Hp Hg H)
      as (r & pr & t & low & mem & ranks & ps2 & ps3 & Hr & Hrk & Hproj &
          [Ha2 Hb2] & Hi & Hrec & a3 & b3 & a' & b' & Ha3 & Hb3 & Ha' &
          Hb' & Hsa & Hsb).
    rewrite Ha in Ha2.
    destruct (reconcile_done_fresh group ranks i low ps2 ps3 Ha2 Hrec)
      as [Hz1 Hz2].
    simplify_eq.
    exists pr, t, low, mem, a', b'.
    destruct Hsa as [Hsa1 Hsa2], Hsb as [Hsb1 Hsb2].
    unfold zeros_like, zeros, nrows in *. simpl in *.
    rewrite length_replicate in Hsa1, Hsb1.
    unfold same_shape, nrows. split_and!; done.
  - intros L closure grads o q a b Ha Hb.
    destruct (step_evolves closure grads o) as (_ & _ & Hgr).
    apply (Hgr q a b Ha Hb).
Qed.

(** ** Rank estimation on any matrix *)



(** ** The step size *)

Lemma fpow_SS x m : fpow x (S (S m)) = fmul x (fpow x (S m)).
Proof. reflexivity. Qed.

Lemma valid_beta_fin x :
  valid_beta x = true -> exists q, x = Fin q /\ (0 <= q < 1)%Q.
Proof.
  unfold valid_beta. intros [H1 H2]%andb_prop.
  destruct x as [q| | |]; try done.
  exists q. split; [done|]. split.
  - by apply Qle_bool_iff.
  - by apply Qltb_true.
Qed.

Lemma fpow_below_one q t :
  (0 <= q < 1)%Q -> 1 <= t ->
  exists q', fpow (Fin q) t = Fin q' /\ (0 <= q' < 1)%Q.
Proof.
  intros Hq Ht. destruct t as [|t]; [lia|]. clear Ht.
  induction t as [|t (q' & Hq' & Hb)].
  - by exists q.
  - rewrite fpow_SS, Hq'. exists (q * q')%Q. split; [done|]. nra.
Qed.

Lemma math_sqrt_nonneg q :
  (0 <= q)%Q -> math_sqrt (Fin q) = Some (fsqrt (Fin q)).
Proof.
  intros Hq. unfold math_sqrt, fsqrt.
  by rewrite (proj2 (Qltb_false q 0) Hq).
Qed.

Lemma py_div_nonzero x q :
  ~ (q == 0)%Q -> py_div x (Fin q) = Some (fdiv x (Fin q)).
Proof. intros Hq. unfold py_div. by rewrite Qzerob_false. Qed.

Lemma step_size_corrected {S} group t (st : S) :
  correct_bias group = true ->
  valid_beta (fst (betas group)) = true ->
  valid_beta (snd (betas group)) = true ->
  1 <= t ->
  step_size group t st =
    Done (fdiv (fmul (lr group)
                  (fsqrt (fsub fone (fpow (snd (betas group)) t))))
            (fsub fone (fpow (fst (betas group)) t))) st.
Proof.
  intros Hc (b1 & E1 & Hb1)%valid_beta_fin (b2 & E2 & Hb2)%valid_beta_fin Ht.
  destruct (fpow_below_one b1 t Hb1 Ht) as (q1 & F1 & Hq1).
  destruct (fpow_below_one b2 t Hb2 Ht) as (q2 & F2 & Hq2).
  unfold step_size. rewrite Hc, E1, E2, F1, F2.
  change (fsub fone (Fin q2)) with (Fin (1 + - q2)).
  change (fsub fone (Fin q1)) with (Fin (1 + - q1)).
  rewrite math_sqrt_nonneg by lra.
  unfold mbind, Op_bind, bind, need, ret.
  rewrite py_div_nonzero by lra. done.
Qed.

(** C9: without bias correction the step size is the learning rate of the
    group, whatever the step counter.  With it, for betas in [0, 1) and a
    step counter [t] of at least 1, as it is after the increment, it is
    [lr * sqrt(1 - beta2 ** t) / (1 - beta1 ** t)], which for [t = 1] is
    [lr * sqrt(1 - beta2) / (1 - beta1)]. *)
Theorem step_size_formula {S} (group : Group) (t : nat) (st : S) :
  (correct_bias group = false ->
   step_size group t st = Done (lr group) st) /\
  (correct_bias group = true ->
   valid_beta (fst (betas group)) = true ->
   valid_beta (snd (betas group)) = true ->
   1 <= t ->
   step_size group t st =
     Done (fdiv (fmul (lr group)
                   (fsqrt (fsub fone (fpow (snd (betas group)) t))))
             (fsub fone (fpow (fst (betas group)) t))) st) /\
  (correct_bias group = true ->
   valid_beta (fst (betas group)) = true ->
   valid_beta (snd (betas group)) = true ->
   step_size group 1 st =
     Done (fdiv (fmul (lr group) (fsqrt (fsub fone (snd (betas group)))))
             (fsub fone (fst (betas group)))) st).
Proof.
  split_and!.
  - intros Hc. unfold step_size. by rewrite Hc.
  - apply step_size_corrected.
  - intros Hc H1 H2.
    by rewrite (step_size_corrected group 1 st Hc H1 H2).
Qed.

(** ** The checks of the constructor *)




(** ** More on the explained ratio and the rank-growth loop *)

Lemma rank_loop_S f k (s : list fl) :
  rank_loop (S f) k s =
    if flt (compute_explained_ratio k s) explained_ratio_threshold
    then rank_loop f (S k) s else Some k.
Proof. reflexivity. Qed.

Lemma rank_loop_least n : forall k (s : list fl) r,
  rank_loop n k s = Some r ->
  k <= r /\
  flt (compute_explained_ratio r s) explained_ratio_threshold = false /\
  forall j, k <= j < r ->
    flt (compute_explained_ratio j s) explained_ratio_threshold = true.
Proof.
  induction n as [|n IH]; intros k s r H; [done|].
  rewrite rank_loop_S in H.
  destruct (flt (compute_explained_ratio k s) explained_ratio_threshold)
    eqn:E.
  - destruct (IH _ _ _ H) as (Hle & Hr & Hj). split_and!; [lia|done|].
    intros j Hjr. destruct (decide (j = k)) as [->|Hne]; [done|].
    apply Hj. lia.
  - simplify_eq. split_and!; [lia|done|]. intros j Hj. lia.
Qed.

(** X1: the rank that the loop of line 123 returns is the least candidate,
    from the starting rank on, at which the test [ratio < threshold] is
    false: the test is true at every candidate before it. *)
Theorem rank_is_least {S} (k : nat) (s : list fl) (st st' : S) (r : nat) :
  grow_rank k s st = Done r st' ->
  k <= r /\
  flt (compute_explained_ratio r s) explained_ratio_threshold = false /\
  forall j, k <= j < r ->
    flt (compute_explained_ratio j s) explained_ratio_threshold = true.
Proof.
  unfold grow_rank, need.
  destruct (rank_loop _ _ _) as [r'|] eqn:E; [|done].
  intros [= <- <-]. by eapply rank_loop_least.
Qed.

Lemma var_singleton x : var [x] = NaN.
Proof.
  destruct x as [a| | |]; try reflexivity.
  unfold var, fmean, fsum, fl_of_nat, fsub, fadd, fmul, fneg, fdiv, fzero.
  simpl. unfold inf_signed. rewrite Qzerob_true; [done|].
  change (inject_Z (Z.of_nat 1)) with 1%Q. field.
Qed.

Lemma var_short (s : list fl) : length s <= 1 -> var s = NaN.
Proof.
  destruct s as [|x [|y s]]; simpl; intros H; [done| |lia].
  apply var_singleton.
Qed.

Lemma ratio_short k (s : list fl) :
  length s <= 1 -> compute_explained_ratio k s = NaN.
Proof.
  intros H. unfold compute_explained_ratio. rewrite (var_short s H).
  by destruct (var _).
Qed.

(** X2: on a spectrum of at most one singular value, as for a gradient of
    one row or one column, the explained ratio is NaN at every index, since
    the variance of fewer than two values is; the test of the loop is then
    false at once and the loop returns the rank it started from. *)
Theorem short_spectrum_keeps_rank {S} (k : nat) (s : list fl) (st : S) :
  length s <= 1 ->
  compute_explained_ratio k s = NaN /\
  grow_rank k s st = Done k st.
Proof.
  intros H. split; [by apply ratio_short|].
  unfold grow_rank, loop_fuel. rewrite rank_loop_S, ratio_short by done.
  done.
Qed.










(** ** More on the constructor *)






(** ** What a visit and a step leave alone *)

(** X6: the visit of a parameter writes to nothing but the dictionary and
    the tensor of that parameter and, in a group that carries a rank, the
    position of the parameter in the two tables: the groups, the
    dictionaries and tensors of the other parameters and the other table
    positions are after the visit what they were before, however the visit
    ends; in a group that carries no rank the two tables are as before. *)
Theorem visit_frame grads group i p (o : Optimizer M) :
  let o' := final (visit grads group i p o) in
  param_groups o' = param_groups o /\
  (forall q, q ≠ p ->
     state o' !!! q = state o !!! q /\ weights o' q = weights o q) /\
  (forall j, j ≠ i ->
     param_ranks o' !! j = param_ranks o !! j /\
     current_explained_ratios o' !! j = current_explained_ratios o !! j) /\
  (galore group = None ->
     param_ranks o' = param_ranks o /\
     current_explained_ratios o' = current_explained_ratios o).
Proof.
  intros o'. destruct (keeps_visit grads group i p o). split_and!.
  - done.
  - intros q Hq. split; auto.
  - intros j Hj. split.
    + apply sr_ranks_at0. unfold table_slot. destruct (galore group);
        congruence.
    + apply sr_ratios_at0. unfold table_slot. destruct (galore group);
        congruence.
  - intros Hg. unfold table_slot in *. rewrite Hg in *.
    split; apply list_eq; intros j; auto.
Qed.

#[local] Instance same_layout_refl : Reflexive same_layout.
Proof. by intros o. Qed.

#[local] Instance same_layout_trans : Transitive same_layout.
Proof. intros x y z (? & ? & ?) (? & ? & ?). split_and!; congruence. Qed.

(** X7: a step, however it ends, changes neither the parameter groups, with
    their hyperparameters, nor the number of entries of the Rank Table and
    of the Explained-Ratio Table. *)
Theorem step_keeps_layout {L} (closure : option L) grads (o : Optimizer M) :
  param_groups (final (step closure grads o)) = param_groups o /\
  length (param_ranks (final (step closure grads o)))
    = length (param_ranks o) /\
  length (current_explained_ratios (final (step closure grads o)))
    = length (current_explained_ratios o).
Proof.
  change (same_layout o (final (step closure grads o))).
  apply keeps_step. intros g j q _ _ o1.
  destruct (keeps_visit grads g j q o1). split_and!; [done| |done].
  symmetry. by eapply Forall2_length.
Qed.

(** ** The step counter and the projector *)

#[local] Instance lift_refl R `{!Reflexive R} : Reflexive (lift R).
Proof. intros o q. reflexivity. Qed.

#[local] Instance lift_trans R `{!Transitive R} : Transitive (lift R).
Proof. intros x y z Hxy Hyz q. etrans; [apply Hxy|apply Hyz]. Qed.

Lemma keeps_zoom_lift {A} R `{!Reflexive R} p (m : Op (PState M) A) :
  keeps R m -> keeps (lift R) (zoom p m).
Proof.
  intros Hm o q. unfold zoom. specialize (Hm (state o !!! p)).
  destruct (m (state o !!! p)) as [a ps|e ps]; simpl in *.
  all: destruct (decide (q = p)) as [->|Hne];
    [by rewrite lookup_total_insert_eq
    |rewrite lookup_total_insert_ne by done; reflexivity].
Qed.

Lemma keeps_inrank_update_lift R `{!Reflexive R} i grad :
  keeps (lift R) (inrank_update i grad).
Proof. intros o q. rewrite inrank_update_state. reflexivity. Qed.

Lemma keeps_set_weight_lift R `{!Reflexive R} p t :
  keeps (lift R) (set_weight p t).
Proof. intros o q. reflexivity. Qed.

(** A relation on dictionaries that the five blocks of a visit keep is kept,
    for every parameter, by the visit. *)
Lemma keeps_visit_lift R `{!Reflexive R, !Transitive R} grads group i p :
  keeps R init_step ->
  (forall r pa, keeps R (renew_projector r pa)) ->
  (forall g, keeps R (run_project g)) ->
  (forall g rk j low, keeps R (reconcile g rk j low)) ->
  (forall g grad, keeps R (update_moments g grad)) ->
  keeps (lift R) (visit grads group i p).
Proof.
  intros H1 H2 H3 H4 H5. unfold visit, galore_project, apply_update.
  destruct (grads p) as [| |grad];
    [apply (pure_keeps (lift R)); solve [pure_tac]..|].
  destruct (galore group), (flt fzero (weight_decay group)).
  all: repeat first
    [ apply keeps_zoom_lift; [done|];
      first [ apply H1 | apply H4 | apply H5
            | apply (pure_keeps R); solve [pure_tac]
            | apply (keeps_bind R); [apply H2|intros ?; apply H3] ]
    | apply (pure_keeps (lift R)); solve [pure_tac]
    | apply keeps_inrank_update_lift; done
    | apply keeps_set_weight_lift; done
    | apply (keeps_bind (lift R)); [|intros ?] ].
Qed.

#[local] Instance counter_le_refl : Reflexive counter_le.
Proof. intros ps t Ht. eauto. Qed.

#[local] Instance counter_le_trans : Transitive counter_le.
Proof.
  intros x y z Hxy Hyz t Ht.
  destruct (Hxy t Ht) as (t' & Ht' & ?).
  destruct (Hyz t' Ht') as (t'' & Ht'' & ?).
  exists t''. split; [done|lia].
Qed.

Ltac counter_tac :=
  intros ps t Ht; op_unfold; simpl; rewrite ?Ht; simpl;
  op_cases; simplify_eq; eexists; (split; [done|lia]).

Lemma init_step_counter : keeps counter_le init_step.
Proof. unfold init_step. counter_tac. Qed.

Lemma renew_projector_counter r pa : keeps counter_le (renew_projector r pa).
Proof. unfold renew_projector. counter_tac. Qed.

Lemma run_project_counter grad : keeps counter_le (run_project grad).
Proof. unfold run_project. counter_tac. Qed.

Lemma reconcile_counter group ranks i grad :
  keeps counter_le (reconcile group ranks i grad).
Proof. unfold reconcile. counter_tac. Qed.

Lemma update_moments_counter group grad :
  keeps counter_le (update_moments group grad).
Proof. unfold update_moments. counter_tac. Qed.

Lemma step_counter_le {L} (closure : option L) grads (o : Optimizer M) :
  lift counter_le o (final (step closure grads o)).
Proof.
  apply keeps_step. intros g j q _ _.
  apply keeps_visit_lift; auto using init_step_counter,
    renew_projector_counter, run_project_counter, reconcile_counter,
    update_moments_counter; apply _.
Qed.

#[local] Instance same_on_refl {X} (f : PState M -> X) : Reflexive (same_on f).
Proof. by intros ps. Qed.

#[local] Instance same_on_trans {X} (f : PState M -> X) :
  Transitive (same_on f).
Proof. intros x y z Hxy Hyz. unfold same_on in *. congruence. Qed.

#[local] Instance dict_same_refl p : Reflexive (dict_same p).
Proof. by intros o. Qed.

#[local] Instance dict_same_trans p : Transitive (dict_same p).
Proof. intros x y z (? & ? & ?) (? & ? & ?). split_and!; congruence. Qed.

Lemma keeps_zoom_dict {A} p (m : Op (PState M) A) :
  pure m -> keeps (dict_same p) (zoom p m).
Proof.
  intros Hm o. unfold zoom. specialize (Hm (state o !!! p)).
  destruct (m (state o !!! p)) as [a ps|e ps]; simpl in *; subst ps.
  all: split_and!; simpl; try done; by rewrite lookup_total_insert_eq.
Qed.

(** Lines 159-183 change neither the tables nor the dictionary. *)
Lemma keeps_apply_update_dict group p m :
  keeps (dict_same p) (apply_update group p m).
Proof.
  unfold apply_update.
  destruct (galore group), (flt fzero (weight_decay group)).
  all: repeat first
    [ (intros o; by split_and!)
    | apply keeps_zoom_dict; solve [pure_tac]
    | apply (pure_keeps (dict_same _)); solve [pure_tac]
    | apply (keeps_bind (dict_same _)); [|intros ?] ].
Qed.

(** The blocks of a visit that goes through, in order. *)
Lemma visit_chain grads group i p grad (o o' : Optimizer M) :
  grads p = GDense grad ->
  visit grads group i p o = Done tt o' ->
  exists ps1 low o2 ps3 m ps4,
    init_step (state o !!! p) = Done tt ps1 /\
    galore_project group i p grad (with_dict p ps1 o) = Done low o2 /\
    reconcile group (param_ranks o2) i low (state o2 !!! p) = Done tt ps3 /\
    update_moments group low ps3 = Done m ps4 /\
    apply_update group p m (with_dict p ps4 (with_dict p ps3 o2))
      = Done tt o' /\
    param_ranks o' = param_ranks o2 /\
    current_explained_ratios o' = current_explained_ratios o2 /\
    state o' !!! p = ps4.
Proof.
  intros Hp H. unfold visit in H. rewrite Hp in H.
  apply bind_done in H as ([] & o1 & H1 & H).
  apply zoom_done in H1 as (ps1 & H1 & ->).
  apply bind_done in H as (low & o2 & H2 & H).
  apply bind_done in H as (ranks & o2' & Hget & H).
  assert (o2' = o2 /\ ranks = param_ranks o2) as [-> ->]
    by (by inversion Hget).
  clear Hget.
  apply bind_done in H as ([] & o3 & H3 & H).
  apply zoom_done in H3 as (ps3 & H3 & ->).
  apply bind_done in H as (m & o4 & H4 & H).
  apply zoom_done in H4 as (ps4 & H4 & ->). simpl in H4.
  rewrite lookup_total_insert_eq in H4.
  match type of H with
  | _ ?st = _ => pose proof (keeps_apply_update_dict group p m st) as Ht
  end.
  rewrite H in Ht. destruct Ht as (Hr & Hq & Hs). simpl in Hr, Hq, Hs.
  rewrite lookup_total_insert_eq in Hs.
  exists ps1, low, o2, ps3, m, ps4. by split_and!.
Qed.

Ltac same_on_tac :=
  intros ps; unfold same_on; op_unfold; simpl; op_cases; done.

Lemma renew_projector_step r pa :
  keeps (same_on st_step) (renew_projector r pa).
Proof. unfold renew_projector. same_on_tac. Qed.

Lemma run_project_step grad : keeps (same_on st_step) (run_project grad).
Proof. unfold run_project. same_on_tac. Qed.

Lemma reconcile_step group ranks i grad :
  keeps (same_on st_step) (reconcile group ranks i grad).
Proof. unfold reconcile. same_on_tac. Qed.

Lemma reconcile_projector group ranks i grad :
  keeps (same_on st_projector) (reconcile group ranks i grad).
Proof. unfold reconcile. same_on_tac. Qed.

Lemma update_moments_projector group grad :
  keeps (same_on st_projector) (update_moments group grad).
Proof. unfold update_moments. same_on_tac. Qed.

Lemma init_step_projector : keeps (same_on st_projector) init_step.
Proof. unfold init_step. same_on_tac. Qed.

Lemma keeps_galore_project_step group i p grad :
  keeps (lift (same_on st_step)) (galore_project group i p grad).
Proof.
  unfold galore_project. destruct (galore group) as [pa|].
  - apply (keeps_bind (lift (same_on st_step)));
      [by apply keeps_inrank_update_lift|intros _].
    apply (keeps_bind (lift (same_on st_step)));
      [apply (pure_keeps (lift (same_on st_step))); solve [pure_tac]
      |intros r].
    apply keeps_zoom_lift; [apply _|].
    apply (keeps_bind (same_on st_step));
      [apply renew_projector_step|intros _; apply run_project_step].
  - apply (pure_keeps (lift (same_on st_step))). pure_tac.
Qed.

Lemma init_step_done (ps ps' : PState M) :
  init_step ps = Done tt ps' -> st_step ps' = Some (counter ps).
Proof.
  unfold init_step, counter. op_unfold. simpl.
  destruct (st_step ps) eqn:E; simpl; intros [= <-]; simpl; done.
Qed.

Lemma update_moments_done_step group grad (ps : PState M) m ps' :
  update_moments group grad ps = Done m ps' ->
  exists t, st_step ps = Some t /\ st_step ps' = Some (t + 1).
Proof.
  unfold update_moments. op_unfold. simpl.
  destruct (st_exp_avg ps) as [a|]; [|done]. simpl.
  destruct (st_exp_avg_sq ps) as [b|]; [|done]. simpl.
  destruct (st_step ps) as [t|]; [|done]. simpl.
  destruct (tzip_ _ (tmap _ a) grad) as [a'|]; [|done]. simpl.
  destruct (tzip_ _ (tmap _ b) grad) as [b'|]; [|done]. simpl.
  intros [= <- <-]. simpl. eauto.
Qed.

(** X8: the step counter of a parameter counts its visits.  A visit on a
    dense gradient that goes through leaves the counter one above what it
    was, a missing counter counting as 0 (lines 108-109 and 151); and over
    a step, however it ends, a counter neither disappears nor decreases. *)
Theorem step_counter_counts_visits :
  (forall grads group i p grad (o o' : Optimizer M),
     grads p = GDense grad ->
     visit grads group i p o = Done tt o' ->
     st_step (state o' !!! p) = Some (S (counter (state o !!! p)))) /\
  (forall L (closure : option L) grads (o : Optimizer M) q t,
     st_step (state o !!! q) = Some t ->
     exists t',
       st_step (state (final (step closure grads o)) !!! q) = Some t' /\
       t <= t').
Proof.
  split.
  - intros grads group i p grad o o' Hp H.
    destruct (visit_chain grads group i p grad o o' Hp H)
      as (ps1 & low & o2 & ps3 & m & ps4 & H1 & H2 & H3 & H4 & _ & _ & _ & <-).
    apply init_step_done in H1.
    pose proof (keeps_galore_project_step group i p grad
                  (with_dict p ps1 o) p) as Hk.
    rewrite H2 in Hk. unfold same_on in Hk. simpl in Hk.
    rewrite lookup_total_insert_eq in Hk.
    pose proof (reconcile_step group (param_ranks o2) i low
                  (state o2 !!! p)) as Hr.
    rewrite H3 in Hr. unfold same_on in Hr. simpl in Hr.
    apply update_moments_done_step in H4 as (t & Ht & ->).
    f_equal. rewrite Hr, Hk, H1 in Ht. simplify_eq. lia.
  - intros L closure grads o q t Ht.
    apply (step_counter_le closure grads o q t Ht).
Qed.

Lemma renew_projector_done_full r pa (ps ps' : PState M) :
  renew_projector r pa ps = Done tt ps' ->
  exists pr1,
    st_projector ps' = Some pr1 /\ st_step ps' = st_step ps /\
    p_rank pr1 = r /\
    (forall pr0, st_projector ps = Some pr0 -> p_rank pr0 = r -> pr1 = pr0) /\
    ((forall pr0, st_projector ps = Some pr0 -> p_rank pr0 ≠ r) ->
     pr1 = mkProjector r (update_proj_gap pa) (scale pa) (proj_type pa)
             fresh_mem).
Proof.
  unfold renew_projector. op_unfold. simpl.
  destruct (st_projector ps) as [pr|] eqn:Hpr; simpl.
  - destruct (decide (r ≠ p_rank pr)) as [Hne|Heq]; simpl.
    + intros [= <-]. simpl. eexists. split_and!; try done.
      intros pr0 [= <-] Hr. congruence.
    + intros [= <-]. exists pr.
      assert (r = p_rank pr) as Hr.
      { destruct (decide (r = p_rank pr)); [done|]. by destruct Heq. }
      split_and!; try done.
      * by intros pr0 [= <-] _.
      * intros Hall. by destruct (Hall pr eq_refl).
  - intros [= <-]. simpl. eexists. split_and!; done.
Qed.

Lemma run_project_done_full grad (ps : PState M) low ps' :
  run_project grad ps = Done low ps' ->
  exists pr1 t mem,
    st_projector ps = Some pr1 /\ st_step ps = Some t /\
    project pr1 grad t = Some (low, mem) /\
    st_projector ps' =
      Some (mkProjector (p_rank pr1) (p_gap pr1) (p_scale pr1) (p_type pr1)
              mem).
Proof.
  unfold run_project. op_unfold. simpl.
  destruct (st_projector ps) as [pr|]; [|done]. simpl.
  destruct (st_step ps) as [t|]; [|done]. simpl.
  destruct (project pr grad t) as [[low' mem]|] eqn:Hpr; [|done]. simpl.
  intros [= <- <-]. simpl. exists pr, t, mem. done.
Qed.

Lemma galore_project_done group pa i p grad (o : Optimizer M) low o2 :
  galore group = Some pa ->
  galore_project group i p grad o = Done low o2 ->
  exists r0 r ps1a ps2,
    param_ranks o !! i = Some r0 /\ r0 <= r /\
    param_ranks o2 !! i = Some r /\
    renew_projector r pa (state o !!! p) = Done tt ps1a /\
    run_project grad ps1a = Done low ps2 /\
    state o2 !!! p = ps2.
Proof.
  intros Hg H. unfold galore_project in H. rewrite Hg in H.
  apply bind_done in H as ([] & o1a & Hu & H).
  apply inrank_update_done in Hu as (Hst & r0 & r1 & Hr0 & Hle & Hranks).
  apply bind_done in H as (r & o1b & Hr & H).
  apply get_rank_done in Hr as (-> & Hr).
  assert (r = r1) as ->.
  { rewrite Hranks in Hr. rewrite list_lookup_insert_eq in Hr.
    - by simplify_eq.
    - by eapply lookup_lt_Some. }
  apply zoom_done in H as (ps2 & H & ->). rewrite Hst in H.
  apply bind_done in H as ([] & ps1a & Hn & H).
  exists r0, r1, ps1a, ps2. split_and!; try done.
  simpl. by rewrite lookup_total_insert_eq.
Qed.

(** X9: the projector of a parameter follows its rank.  After a visit that
    goes through, in a group that carries a rank, the dictionary holds a
    projector whose rank is the entry of the Rank Table; it is the projector
    that was there if that one had this rank, and otherwise a new one with
    the hyperparameters of the group; [project] was called on it with the
    gradient and the step counter before its increment, and the memory it
    returned is the memory of the projector kept. *)
Theorem projector_follows_rank grads group pa i p grad (o o' : Optimizer M) :
  grads p = GDense grad -> galore group = Some pa ->
  visit grads group i p o = Done tt o' ->
  exists r pr1 low mem,
    param_ranks o' !! i = Some r /\
    p_rank pr1 = r /\
    (forall pr0, st_projector (state o !!! p) = Some pr0 -> p_rank pr0 = r ->
       pr1 = pr0) /\
    ((forall pr0, st_projector (state o !!! p) = Some pr0 -> p_rank pr0 ≠ r) ->
     pr1 = mkProjector r (update_proj_gap pa) (scale pa) (proj_type pa)
             fresh_mem) /\
    project pr1 grad (counter (state o !!! p)) = Some (low, mem) /\
    st_projector (state o' !!! p) =
      Some (mkProjector r (p_gap pr1) (p_scale pr1) (p_type pr1) mem).
Proof.
  intros Hp Hg H.
  destruct (visit_chain grads group i p grad o o' Hp H)
    as (ps1 & low & o2 & ps3 & m & ps4 & H1 & H2 & H3 & H4 & _ & Hr & _ & <-).
  pose proof (init_step_projector (state o !!! p)) as Hpj.
  rewrite H1 in Hpj. unfold same_on in Hpj. simpl in Hpj.
  apply init_step_done in H1.
  destruct (galore_project_done group pa i p grad _ low o2 Hg H2)
    as (r0 & r & ps1a & ps2 & _ & _ & Hr2 & Hn & Hrun & Hs2).
  simpl in Hn. rewrite lookup_total_insert_eq in Hn.
  apply renew_projector_done_full in Hn
    as (pr1 & Hpr1 & Hst1 & Hrk & Hkeep & Hnew).
  apply run_project_done_full in Hrun
    as (pr1' & t & mem & Hpr1' & Ht & Hproj & Hpr2).
  rewrite Hpr1 in Hpr1'. simplify_eq.
  pose proof (reconcile_projector group (param_ranks o2) i low
                (state o2 !!! p)) as Hk3.
  rewrite H3 in Hk3. unfold same_on in Hk3. simpl in Hk3.
  pose proof (update_moments_projector group low ps3) as Hk4.
  rewrite H4 in Hk4. unfold same_on in Hk4. simpl in Hk4.
  exists (p_rank pr1'), pr1', low, mem. split_and!.
  - by rewrite Hr.
  - done.
  - intros pr0 Hpr0. apply Hkeep. by rewrite Hpj.
  - intros Hall. apply Hnew. intros pr0 Hpr0. apply Hall.
    by rewrite <- Hpj.
  - rewrite Hst1, H1 in Ht. by simplify_eq.
  - by rewrite Hk4, Hk3.
Qed.

(** ** Visits that raise half way *)

Lemma bind_run_done {S A B} (m : Op S A) (k : A -> Op S B) s a s1 :
  m s = Done a s1 -> (m ≫= k) s = k a s1.
Proof. intros H. unfold mbind, Op_bind, bind. by rewrite H. Qed.

Lemma bind_run_raised {S A B} (m : Op S A) (k : A -> Op S B) s e s1 :
  m s = Raised e s1 -> (m ≫= k) s = Raised e s1.
Proof. intros H. unfold mbind, Op_bind, bind. by rewrite H. Qed.

Lemma zoom_run_done {A} p (m : Op (PState M) A) (o : Optimizer M) a ps :
  m (state o !!! p) = Done a ps -> zoom p m o = Done a (with_dict p ps o).
Proof. intros H. unfold zoom. by rewrite H. Qed.

Lemma zoom_run_raised {A} p (m : Op (PState M) A) (o : Optimizer M) e ps :
  m (state o !!! p) = Raised e ps -> zoom p m o = Raised e (with_dict p ps o).
Proof. intros H. unfold zoom. by rewrite H. Qed.

Lemma init_step_run (ps : PState M) : init_step ps = Done tt (started ps).
Proof.
  unfold init_step, started, counter. op_unfold. simpl.
  destruct ps as [[t|] pr a b]; done.
Qed.

Lemma state_with_dict p ps (o : Optimizer M) :
  state (with_dict p ps o) !!! p = ps.
Proof. simpl. apply lookup_total_insert_eq. Qed.

(** X10: in a group that carries a rank, the visit of a parameter whose
    position is past the end of the Rank Table raises an IndexError at line
    116; by then the dictionary of the parameter has its step counter, and
    nothing else has changed. *)
Theorem rank_index_out_of_range grads group pa i p grad (o : Optimizer M) :
  grads p = GDense grad -> galore group = Some pa ->
  length (param_ranks o) <= i ->
  visit grads group i p o
  = Raised IndexError (with_dict p (started (state o !!! p)) o).
Proof.
  intros Hp Hg Hi. unfold visit. rewrite Hp.
  rewrite (bind_run_done _ _ _ _ _
             (zoom_run_done p _ o _ _ (init_step_run _))).
  apply bind_run_raised. unfold galore_project. rewrite Hg.
  apply bind_run_raised. unfold inrank_update.
  apply bind_run_raised. unfold get_rank. op_unfold. simpl.
  by rewrite lookup_ge_None_2.
Qed.

Lemma length_stretch {A} n (l : list A) :
  length l = n \/ length l = 1 -> length (stretch n l) = n.
Proof.
  intros H. unfold stretch. destruct (decide (length l = n)); [done|].
  destruct H as [H|H]; [done|].
  destruct l as [|x [|y l]]; simpl in *; try lia.
  apply length_replicate.
Qed.

Lemma bdim_cases x y r :
  bdim x y = Some r -> (x = r \/ x = 1) /\ (y = r \/ y = 1) /\
                       (y ≠ 1 -> r = y).
Proof.
  unfold bdim. repeat (destruct (decide _)); intros [= <-]; lia.
Qed.

Lemma tzip_shape f a b t :
  tzip f a b = Some t ->
  bdim (nrows a) (nrows b) = Some (nrows t) /\
  bdim (ncols a) (ncols b) = Some (ncols t).
Proof.
  unfold tzip. destruct (bdim (nrows a) (nrows b)) as [r|] eqn:Hr; [|done].
  destruct (bdim (ncols a) (ncols b)) as [c|] eqn:Hc; [|done]. simpl.
  intros [= <-]. split; [|done]. f_equal.
  destruct (bdim_cases _ _ _ Hr) as (Ha & Hb & _).
  unfold nrows in *. simpl.
  rewrite length_zip_with, !length_stretch; [lia|..];
    rewrite length_map; done.
Qed.

(** A gradient whose size on some axis is neither the size of the buffer
    nor 1 cannot be added to the buffer in place. *)
Lemma tzip__incompatible f a b :
  (nrows b ≠ nrows a /\ nrows b ≠ 1) \/ (ncols b ≠ ncols a /\ ncols b ≠ 1) ->
  tzip_ f a b = None.
Proof.
  intros H. unfold tzip_.
  destruct (tzip f a b) as [t|] eqn:Ht; [|done]. simpl.
  destruct (decide _) as [[H1 H2]|]; [|done].
  apply tzip_shape in Ht as [Hr Hc].
  apply bdim_cases in Hr as (_ & _ & Hr). apply bdim_cases in Hc as (_ & _ & Hc).
  destruct H as [[? ?]|[? ?]]; [specialize (Hr ltac:(done))
                               |specialize (Hc ltac:(done))]; congruence.
Qed.

(** X11: a visit that fails is not undone.  In a group that carries no
    rank, when the gradient has on some axis a size that is neither the
    size of the moment buffers nor 1, the visit raises the RuntimeError of
    the in-place addition of line 155; it leaves the step counter
    incremented and [exp_avg] multiplied by beta1, while [exp_avg_sq], the
    parameter and the two tables are as before. *)
Theorem failed_update_is_not_undone grads group i p g (o : Optimizer M) a b :
  grads p = GDense g -> galore group = None ->
  st_exp_avg (state o !!! p) = Some a ->
  st_exp_avg_sq (state o !!! p) = Some b ->
  (nrows g ≠ nrows a /\ nrows g ≠ 1) \/ (ncols g ≠ ncols a /\ ncols g ≠ 1) ->
  exists o',
    visit grads group i p o = Raised ShapeMismatch o' /\
    st_step (state o' !!! p) = Some (S (counter (state o !!! p))) /\
    st_exp_avg (state o' !!! p)
      = Some (tmap (fun x => fmul x (betas group).1) a) /\
    st_exp_avg_sq (state o' !!! p) = Some b /\
    st_projector (state o' !!! p) = st_projector (state o !!! p) /\
    weights o' = weights o /\
    param_ranks o' = param_ranks o /\
    current_explained_ratios o' = current_explained_ratios o.
Proof.
  intros Hp Hg Ha Hb Hshape. unfold visit. rewrite Hp.
  rewrite (bind_run_done _ _ _ _ _
             (zoom_run_done p _ o _ _ (init_step_run _))).
  unfold galore_project. rewrite Hg.
  rewrite (bind_run_done _ _ _ g (with_dict p (started (state o !!! p)) o))
    by done.
  set (o1 := with_dict p (started (state o !!! p)) o).
  rewrite (bind_run_done (gets param_ranks) _ o1 (param_ranks o1) o1) by done.
  assert (reconcile group (param_ranks o1) i g (state o1 !!! p)
          = Done tt (started (state o !!! p))) as Hrec.
  { unfold o1. rewrite state_with_dict. unfold reconcile. op_unfold. simpl.
    by rewrite Ha, Hg. }
  rewrite (bind_run_done _ _ _ _ _ (zoom_run_done p _ o1 _ _ Hrec)).
  set (o2 := with_dict p (started (state o !!! p)) o1).
  eexists. split.
  - apply bind_run_raised. apply zoom_run_raised.
    unfold o2. rewrite state_with_dict.
    unfold update_moments. op_unfold. simpl. rewrite Ha. simpl.
    rewrite Hb. simpl.
    rewrite tzip__incompatible; [done|].
    rewrite nrows_tmap. done.
  - rewrite state_with_dict. simpl. split_and!; try done.
    f_equal. lia.
Qed.

(** ** The update of a group that carries no rank *)

Lemma stretch_same {A} n (l : list A) : length l = n -> stretch n l = l.
Proof. intros H. unfold stretch. by rewrite decide_True. Qed.

Lemma expand_same r c t :
  rect t -> nrows t = r -> ncols t = c -> expand r c t = t.
Proof.
  intros Hr <- <-. unfold expand. destruct t as [c l]. simpl in *. f_equal.
  assert (map (stretch c) l = l) as ->.
  { unfold rect in Hr. simpl in Hr. induction Hr as [|x l Hx _ IH]; simpl;
      [done|]. by rewrite IH, stretch_same. }
  by apply stretch_same.
Qed.

Lemma bdim_same x : bdim x x = Some x.
Proof. unfold bdim. by rewrite decide_True. Qed.

Lemma tzip_same f a b :
  rect a -> rect b -> same_shape a b -> tzip f a b = Some (zipt f a b).
Proof.
  intros Ha Hb [H1 H2]. unfold tzip. rewrite <- H1, <- H2, !bdim_same.
  unfold mbind, option_bind. by rewrite !expand_same.
Qed.

Lemma nrows_zipt f a b : nrows a = nrows b -> nrows (zipt f a b) = nrows a.
Proof.
  unfold nrows, zipt. simpl. intros H. rewrite length_zip_with. lia.
Qed.

Lemma tzip__same f a b :
  rect a -> rect b -> same_shape a b -> tzip_ f a b = Some (zipt f a b).
Proof.
  intros Ha Hb Hs. unfold tzip_. rewrite tzip_same by done. simpl.
  rewrite decide_True; [done|]. split; [|done].
  apply nrows_zipt. by destruct Hs.
Qed.

Lemma rect_zipt f a b :
  rect a -> rect b -> same_shape a b -> rect (zipt f a b).
Proof.
  intros Ha Hb [_ Hc]. unfold rect, zipt in *. simpl.
  apply Forall_lookup. intros i row Hrow.
  apply lookup_zip_with_Some in Hrow as (ra & rb & -> & Hra & Hrb).
  rewrite Forall_lookup in Ha, Hb.
  rewrite length_zip_with, (Ha _ _ Hra), (Hb _ _ Hrb). lia.
Qed.

Lemma rect_tmap f t : rect t -> rect (tmap f t).
Proof.
  unfold rect, tmap. simpl. intros H. apply Forall_map.
  eapply Forall_impl; [exact H|]. intros r Hr. simpl.
  by rewrite length_map.
Qed.

Lemma rect_zeros_like t : rect (zeros_like t).
Proof.
  unfold rect, zeros_like, zeros. simpl. apply Forall_forall.
  intros r Hr. apply elem_of_replicate in Hr as [-> _].
  apply length_replicate.
Qed.

Lemma same_shape_zeros_like t : same_shape t (zeros_like t).
Proof.
  unfold same_shape, zeros_like, zeros, nrows. simpl.
  by rewrite length_replicate.
Qed.

Lemma same_shape_tmap f t : same_shape t (tmap f t).
Proof. split; [by rewrite nrows_tmap|done]. Qed.

Lemma same_shape_zipt f a b : same_shape a b -> same_shape a (zipt f a b).
Proof. intros [H1 H2]. split; [by rewrite nrows_zipt|done]. Qed.

#[local] Instance same_shape_equiv : Equivalence same_shape.
Proof.
  split.
  - by intros a.
  - by intros a b [? ?].
  - intros a b c [? ?] [? ?]. split; congruence.
Qed.

Lemma entry_tmap f t r c : entry (tmap f t) r c = f <$> entry t r c.
Proof.
  unfold entry, tmap. simpl. rewrite list_lookup_fmap.
  destruct (cells t !! r) as [row|]; simpl; [|done].
  by rewrite list_lookup_fmap.
Qed.

Lemma entry_zipt f a b r c x y :
  entry a r c = Some x -> entry b r c = Some y ->
  entry (zipt f a b) r c = Some (f x y).
Proof.
  unfold entry, zipt. simpl. intros Ha Hb. rewrite lookup_zip_with.
  destruct (cells a !! r) as [ra|]; simpl in *; [|done].
  destruct (cells b !! r) as [rb|]; simpl in *; [|done].
  by rewrite lookup_zip_with, Ha, Hb.
Qed.

Lemma entry_zeros_like t r c x :
  entry t r c = Some x -> rect t -> entry (zeros_like t) r c = Some fzero.
Proof.
  unfold entry, zeros_like, zeros. simpl. intros H Hr.
  destruct (cells t !! r) as [row|] eqn:Hrow; simpl in *; [|done].
  apply lookup_lt_Some in Hrow as Hlt. apply lookup_lt_Some in H as Hlc.
  unfold rect in Hr. rewrite Forall_lookup in Hr.
  rewrite (Hr _ _ Hrow) in Hlc.
  rewrite lookup_replicate_2 by done. simpl.
  by rewrite lookup_replicate_2.
Qed.

Lemma step_size_any {S1 S2} group t (s1 : S1) (s2 : S2) ss :
  step_size group t s1 = Done ss s1 -> step_size group t s2 = Done ss s2.
Proof.
  unfold step_size. destruct (correct_bias group).
  - op_unfold. destruct (math_sqrt _) as [r|]; [|done]. simpl.
    destruct (py_div _ _); [|done]. by intros [= <-].
  - op_unfold. by intros [= <-].
Qed.

Lemma same_shape_tmap_l f a g : same_shape g a -> same_shape (tmap f a) g.
Proof. intros [H1 H2]. split; [by rewrite nrows_tmap|done]. Qed.

Lemma reconcile_plain group ranks i g (ps : PState M) a b :
  galore group = None ->
  (st_exp_avg ps = Some a /\ st_exp_avg_sq ps = Some b) \/
  (st_exp_avg ps = None /\ a = zeros_like g /\ b = zeros_like g) ->
  reconcile group ranks i g (started ps)
  = Done tt (mkPState (Some (counter ps)) (st_projector ps) (Some a) (Some b)).
Proof.
  intros Hg Hbuf. unfold reconcile, started. op_unfold. simpl.
  destruct Hbuf as [[Ha Hb]|(Ha & -> & ->)]; rewrite Ha; simpl.
  - by rewrite Hg, Hb.
  - done.
Qed.

Lemma update_moments_same_shape group g (ps : PState M) t a b :
  st_step ps = Some t -> st_exp_avg ps = Some a -> st_exp_avg_sq ps = Some b ->
  rect g -> rect a -> rect b -> same_shape g a -> same_shape g b ->
  let a1 := zipt (fun x y => fadd x (fmul (fsub fone (betas group).1) y))
              (tmap (fun x => fmul x (betas group).1) a) g in
  let b1 := zipt (fun x y => fadd x (fmul (fsub fone (betas group).2)
                                       (fmul y y)))
              (tmap (fun x => fmul x (betas group).2) b) g in
  update_moments group g ps
  = Done (a1, tmap (fun x => fadd (fsqrt x) (eps group)) b1)
      (mkPState (Some (t + 1)) (st_projector ps) (Some a1) (Some b1)).
Proof.
  intros Ht Ha Hb Rg Ra Rb Sa Sb a1 b1.
  unfold update_moments. op_unfold. simpl.
  rewrite Ha. simpl. rewrite Hb. simpl. rewrite Ht. simpl.
  rewrite tzip__same;
    [simpl| by apply rect_tmap | done | by apply same_shape_tmap_l].
  by rewrite tzip__same;
    [| by apply rect_tmap | done | by apply same_shape_tmap_l].
Qed.

(** What the visit of a parameter of a group without rank computes. *)
Lemma plain_visit_run grads group i p g (o : Optimizer M) a b ss :
  grads p = GDense g -> galore group = None ->
  (st_exp_avg (state o !!! p) = Some a /\
   st_exp_avg_sq (state o !!! p) = Some b) \/
  (st_exp_avg (state o !!! p) = None /\
   a = zeros_like g /\ b = zeros_like g) ->
  rect g -> rect a -> rect b -> rect (weights o p) ->
  same_shape g a -> same_shape g b -> same_shape g (weights o p) ->
  step_size group (S (counter (state o !!! p))) tt = Done ss tt ->
  exists o' a' b',
    visit grads group i p o = Done tt o' /\
    st_exp_avg (state o' !!! p) = Some a' /\
    st_exp_avg_sq (state o' !!! p) = Some b' /\
    rect a' /\ rect b' /\ rect (weights o' p) /\
    same_shape g a' /\ same_shape g b' /\ same_shape g (weights o' p) /\
    forall r c x m v w,
      entry g r c = Some x -> entry a r c = Some m ->
      entry b r c = Some v -> entry (weights o p) r c = Some w ->
      let m' := fadd (fmul m (betas group).1)
                  (fmul (fsub fone (betas group).1) x) in
      let v' := fadd (fmul v (betas group).2)
                  (fmul (fsub fone (betas group).2) (fmul x x)) in
      let w' := fadd w (fmul (fneg ss)
                          (fdiv m' (fadd (fsqrt v') (eps group)))) in
      entry a' r c = Some m' /\
      entry b' r c = Some v' /\
      entry (weights o' p) r c =
        Some (if flt fzero (weight_decay group)
              then fadd w' (fmul (fmul (fneg (lr group)) (weight_decay group))
                              w')
              else w').
Proof.
  intros Hp Hg Hbuf Rg Ra Rb Rw Sa Sb Sw Hss.
  set (ps0 := state o !!! p) in *.
  set (ps2 := mkPState (Some (counter ps0)) (st_projector ps0) (Some a)
                (Some b)).
  set (a1 := zipt (fun x y => fadd x (fmul (fsub fone (betas group).1) y))
               (tmap (fun x => fmul x (betas group).1) a) g).
  set (b1 := zipt (fun x y => fadd x (fmul (fsub fone (betas group).2)
                                        (fmul y y)))
               (tmap (fun x => fmul x (betas group).2) b) g).
  set (denom := tmap (fun x => fadd (fsqrt x) (eps group)) b1).
  set (ps4 := mkPState (Some (counter ps0 + 1)) (st_projector ps0) (Some a1)
                (Some b1)).
  set (norm := zipt fdiv a1 denom).
  set (w1 := zipt (fun x n => fadd x (fmul (fneg ss) n)) (weights o p) norm).
  assert (rect a1 /\ same_shape g a1) as [Ra1 Sa1].
  { assert (same_shape (tmap (fun x => fmul x (betas group).1) a) g) as Hs
      by (by apply same_shape_tmap_l).
    split; [apply rect_zipt; [by apply rect_tmap|done|done]|].
    etrans; [symmetry; exact Hs|]. by apply same_shape_zipt. }
  assert (rect b1 /\ same_shape g b1) as [Rb1 Sb1].
  { assert (same_shape (tmap (fun x => fmul x (betas group).2) b) g) as Hs
      by (by apply same_shape_tmap_l).
    split; [apply rect_zipt; [by apply rect_tmap|done|done]|].
    etrans; [symmetry; exact Hs|]. by apply same_shape_zipt. }
  assert (rect denom /\ same_shape g denom) as [Rd Sd].
  { split; [by apply rect_tmap|]. etrans; [exact Sb1|apply same_shape_tmap]. }
  assert (same_shape a1 denom) as Sad by (etrans; [symmetry; exact Sa1|done]).
  assert (rect norm /\ same_shape g norm) as [Rn Sn].
  { split; [by apply rect_zipt|].
    etrans; [exact Sa1|by apply same_shape_zipt]. }
  assert (same_shape (weights o p) norm) as Swn
    by (etrans; [symmetry; exact Sw|done]).
  assert (rect w1 /\ same_shape g w1) as [Rw1 Sw1].
  { split; [by apply rect_zipt|].
    etrans; [exact Sw|by apply same_shape_zipt]. }
  (* the run *)
  set (o1 := with_dict p (started ps0) o).
  set (o3 := with_dict p ps2 o1).
  set (o4 := with_dict p ps4 o3).
  assert (zoom p init_step o = Done tt o1) as E1
    by (apply zoom_run_done, init_step_run).
  assert (zoom p (reconcile group (param_ranks o1) i g) o1 = Done tt o3) as E3.
  { apply zoom_run_done. unfold o1. rewrite state_with_dict.
    by apply reconcile_plain. }
  assert (zoom p (update_moments group g) o3 = Done (a1, denom) o4) as E4.
  { apply zoom_run_done. unfold o3. rewrite state_with_dict.
    by apply (update_moments_same_shape group g ps2 (counter ps0) a b). }
  set (o5 := with_dict p ps4 o4).
  set (wfin := if flt fzero (weight_decay group)
               then tmap (fun x => fadd x (fmul (fmul (fneg (lr group))
                                                   (weight_decay group)) x))
                      w1
               else w1).
  assert (exists o6, apply_update group p (a1, denom) o4 = Done tt o6 /\
            state o6 = state o5 /\ weights o6 p = wfin) as (o6 & E5 & Es & Ew).
  { unfold apply_update.
    rewrite (bind_run_done _ _ o4 (counter ps0 + 1) o5) by
      (apply zoom_run_done; unfold o4; by rewrite state_with_dict).
    rewrite Nat.add_1_r.
    rewrite (bind_run_done _ _ o5 ss o5) by (by eapply step_size_any).
    simpl fst. simpl snd. rewrite tzip_same by done.
    rewrite (bind_run_done _ _ o5 norm o5) by done.
    rewrite Hg.
    rewrite (bind_run_done _ _ o5 norm o5) by done.
    rewrite (bind_run_done _ _ o5 (weights o p) o5) by done.
    rewrite tzip__same by done.
    rewrite (bind_run_done _ _ o5 w1 o5) by done.
    unfold wfin, set_weight, modify, mbind, Op_bind, bind. simpl.
    destruct (flt fzero (weight_decay group)); simpl.
    - eexists. split; [reflexivity|]. simpl.
      split; [done|apply fn_lookup_insert].
    - eexists. split; [reflexivity|]. simpl.
      split; [done|apply fn_lookup_insert]. }
  exists o6, a1, b1.
  assert (state o6 !!! p = ps4) as Hst.
  { rewrite Es. unfold o5. apply state_with_dict. }
  split_and!.
  - unfold visit. rewrite Hp.
    rewrite (bind_run_done _ _ _ _ _ E1).
    unfold galore_project. rewrite Hg.
    rewrite (bind_run_done _ _ o1 g o1) by done.
    rewrite (bind_run_done _ _ o1 (param_ranks o1) o1) by done.
    rewrite (bind_run_done _ _ _ _ _ E3).
    rewrite (bind_run_done _ _ _ _ _ E4). exact E5.
  - by rewrite Hst.
  - by rewrite Hst.
  - done.
  - done.
  - rewrite Ew. unfold wfin. destruct (flt _ _); [by apply rect_tmap|done].
  - done.
  - done.
  - rewrite Ew. unfold wfin. destruct (flt _ _); [|done].
    etrans; [exact Sw1|apply same_shape_tmap].
  - intros r c x m v w Hx Hm Hv Hw m' v' w'.
    assert (entry a1 r c = Some m') as Hm'.
    { unfold a1.
      erewrite entry_zipt; [|by rewrite entry_tmap, Hm|exact Hx]. done. }
    assert (entry b1 r c = Some v') as Hv'.
    { unfold b1.
      erewrite entry_zipt; [|by rewrite entry_tmap, Hv|exact Hx]. done. }
    assert (entry norm r c
            = Some (fdiv m' (fadd (fsqrt v') (eps group)))) as Hn'.
    { unfold norm.
      erewrite entry_zipt;
        [|exact Hm'|unfold denom; by rewrite entry_tmap, Hv']. done. }
    assert (entry w1 r c = Some w') as Hw'.
    { unfold w1. erewrite entry_zipt; [|exact Hw|exact Hn']. done. }
    split_and!; [done|done|].
    rewrite Ew. unfold wfin. destruct (flt _ _); [|done].
    by rewrite entry_tmap, Hw'.
Qed.

(** X12: in a group that carries no rank, the visit of a parameter whose
    gradient, moment buffers and tensor are matrices of one shape goes
    through when the step size can be computed, and is the AdamW update
    entry by entry:
    [m' = m * beta1 + (1 - beta1) * g],
    [v' = v * beta2 + (1 - beta2) * (g * g)],
    [w' = w + (- step_size) * (m' / (sqrt v' + eps))], followed when the
    weight decay is positive by [w' + ((- lr) * weight_decay) * w'].  On the
    first visit the buffers start from zero.  The new buffers and the new
    tensor are again matrices of that shape. *)
Theorem plain_visit_is_adamw grads group i p g (o : Optimizer M) a b ss :
  grads p = GDense g -> galore group = None ->
  (st_exp_avg (state o !!! p) = Some a /\
   st_exp_avg_sq (state o !!! p) = Some b) \/
  (st_exp_avg (state o !!! p) = None /\
   a = zeros_like g /\ b = zeros_like g) ->
  rect g -> rect a -> rect b -> rect (weights o p) ->
  same_shape g a -> same_shape g b -> same_shape g (weights o p) ->
  step_size group (S (counter (state o !!! p))) tt = Done ss tt ->
  exists o' a' b',
    visit grads group i p o = Done tt o' /\
    st_exp_avg (state o' !!! p) = Some a' /\
    st_exp_avg_sq (state o' !!! p) = Some b' /\
    rect a' /\ rect b' /\ rect (weights o' p) /\
    same_shape g a' /\ same_shape g b' /\ same_shape g (weights o' p) /\
    forall r c x m v w,
      entry g r c = Some x -> entry a r c = Some m ->
      entry b r c = Some v -> entry (weights o p) r c = Some w ->
      let m' := fadd (fmul m (betas group).1)
                  (fmul (fsub fone (betas group).1) x) in
      let v' := fadd (fmul v (betas group).2)
                  (fmul (fsub fone (betas group).2) (fmul x x)) in
      let w' := fadd w (fmul (fneg ss)
                          (fdiv m' (fadd (fsqrt v') (eps group)))) in
      entry a' r c = Some m' /\
      entry b' r c = Some v' /\
      entry (weights o' p) r c =
        Some (if flt fzero (weight_decay group)
              then fadd w' (fmul (fmul (fneg (lr group)) (weight_decay group))
                              w')
              else w').
Proof. apply plain_visit_run. Qed.

(** X13: a gradient of zeros on a parameter that has no moment buffers yet,
    in a group that carries no rank, moves the parameter by the weight decay
    alone.  With finite hyperparameters, an epsilon above zero and a square
    root that is zero at zero, every finite entry [w] of the parameter
    becomes [w - lr * weight_decay * w] when the weight decay is positive
    and stays [w] otherwise. *)
Theorem zero_gradient_only_decays grads group i p g (o : Optimizer M)
    l b1 b2 e d s :
  grads p = GDense g -> galore group = None ->
  st_exp_avg (state o !!! p) = None ->
  rect g -> rect (weights o p) -> same_shape g (weights o p) ->
  (forall r c x, entry g r c = Some x -> exists q, x = Fin q /\ (q == 0)%Q) ->
  lr group = Fin l -> betas group = (Fin b1, Fin b2) ->
  eps group = Fin e -> weight_decay group = Fin d ->
  (0 < e)%Q ->
  (forall q, (q == 0)%Q -> (sqrtQ q == 0)%Q) ->
  step_size group (S (counter (state o !!! p))) tt = Done (Fin s) tt ->
  exists o',
    visit grads group i p o = Done tt o' /\
    forall r c w,
      entry (weights o p) r c = Some (Fin w) ->
      exists q, entry (weights o' p) r c = Some (Fin q) /\
        ((0 < d)%Q -> (q == w - l * d * w)%Q) /\
        ((d <= 0)%Q -> (q == w)%Q).
Proof.
  intros Hp Hg Ha Rg Rw Sw Hzero Hl Hb He Hd Hepos Hsqrt Hss.
  destruct (plain_visit_run grads group i p g o (zeros_like g) (zeros_like g)
              (Fin s) Hp Hg)
    as (o' & a' & b' & Hv & _ & _ & _ & _ & _ & _ & _ & _ & Hent);
    try done.
  { right. done. }
  { apply rect_zeros_like. }
  { apply rect_zeros_like. }
  { apply same_shape_zeros_like. }
  { apply same_shape_zeros_like. }
  exists o'. split; [done|]. intros r c w Hw.
  assert (is_Some (entry g r c)) as [x Hx].
  { apply entry_rect; [done|..].
    - destruct Sw as [-> _]. unfold entry in Hw.
      destruct (cells (weights o p) !! r) eqn:E; [|done].
      by eapply lookup_lt_Some.
    - destruct Sw as [_ ->]. unfold entry in Hw.
      destruct (cells (weights o p) !! r) as [row|] eqn:E; [|done].
      simpl in Hw. apply lookup_lt_Some in Hw.
      unfold rect in Rw. rewrite Forall_lookup in Rw.
      by rewrite (Rw _ _ E) in Hw. }
  destruct (Hzero r c x Hx) as (q0 & -> & Hq0).
  destruct (Hent r c (Fin q0) fzero fzero (Fin w) Hx
              (entry_zeros_like g r c _ Hx Rg)
              (entry_zeros_like g r c _ Hx Rg) Hw) as (_ & _ & Hfin).
  rewrite Hfin. rewrite Hl, Hb, He, Hd. simpl fst. simpl snd.
  unfold fzero, fone, fsub, fneg, fadd, fmul, fsqrt.
  set (m' := (0 * b1 + (1 + - b1) * q0)%Q).
  set (v' := (0 * b2 + (1 + - b2) * (q0 * q0))%Q).
  assert (m' == 0)%Q as Hm' by (unfold m'; rewrite Hq0; ring).
  assert (v' == 0)%Q as Hv' by (unfold v'; rewrite Hq0; ring).
  rewrite (proj2 (Qltb_false v' 0)) by lra.
  pose proof (Hsqrt v' Hv') as Hsv.
  unfold fdiv. rewrite Qzerob_false by lra.
  assert (m' / (sqrtQ v' + e) == 0)%Q as Hn.
  { rewrite Hm'. unfold Qdiv. ring. }
  unfold flt. destruct (Qltb 0 d) eqn:Ed.
  - apply Qltb_true in Ed. eexists. split; [reflexivity|]. split.
    + intros _. rewrite Hn. ring.
    + intros Hle. lra.
  - apply Qltb_false in Ed. eexists. split; [reflexivity|]. split.
    + intros Hlt. lra.
    + intros _. rewrite Hn. ring.
Qed.

(** ** Two more invariants of a step *)

(** X14: the two moment buffers of a parameter have one shape.  The
    optimizer that the constructor returns has no buffers; and if before a
    step every [exp_avg] comes with an [exp_avg_sq] of its shape, then so it
    is after the step, however the step ends. *)
Theorem moment_buffers_share_shape :
  (forall groups lr0 bs eps0 wd cb w (o : Optimizer M),
     init groups lr0 bs eps0 wd cb w = inr o -> all_coherent o) /\
  (forall L (closure : option L) grads (o : Optimizer M),
     all_coherent o -> all_coherent (final (step closure grads o))).
Proof. exact coherent_invariant. Qed.

Lemma visit_groups_no_grad grads gs (o : Optimizer M) :
  (forall g p, g ∈ gs -> p ∈ params g -> grads p = GNone) ->
  visit_groups grads gs o = Done tt o.
Proof.
  induction gs as [|g gs IH]; intros H; simpl; [done|].
  assert (forall ps i, (forall p, p ∈ ps -> grads p = GNone) ->
            visit_params grads g i ps o = Done tt o) as Hps.
  { induction ps as [|p ps IHp]; intros i Hn; simpl; [done|].
    erewrite bind_run_done.
    - apply IHp. intros q Hq. apply Hn. by right.
    - unfold visit. rewrite Hn; [done|left]. }
  erewrite bind_run_done.
  - apply IH. intros g' p Hg'. apply H. by right.
  - apply Hps. intros p Hp. apply (H g p); [left|done].
Qed.

(** X15: when no parameter of any group has a gradient, the step changes
    nothing at all and returns the loss of the closure. *)
Theorem step_without_gradients_is_noop {L} (closure : option L) grads
    (o : Optimizer M) :
  (forall g p, g ∈ param_groups o -> p ∈ params g -> grads p = GNone) ->
  step closure grads o = Done closure o.
Proof.
  intros H. unfold step.
  rewrite (bind_run_done _ _ o (param_groups o) o) by done.
  by rewrite (bind_run_done _ _ o tt o) by (by apply visit_groups_no_grad).
Qed.

End Step.

(** C1 (counterexample): one singular value and the starting rank 2.  The
    candidate index is past the spectrum, the ratio is NaN, so the threshold
    is not met; the loop returns the rank 2 and raises nothing. *)
Lemma rank_growth_raises_nothing :
  length [Fin 5] < 2 /\
  compute_explained_ratio 2 [Fin 5] = NaN /\
  fle explained_ratio_threshold (compute_explained_ratio 2 [Fin 5]) = false /\
  grow_rank 2 [Fin 5] tt = Done 2 tt /\
  ~ (exists e, grow_rank 2 [Fin 5] tt = Raised e tt).
Proof.
  split_and!; [simpl; lia|reflexivity..|].
  intros [e He]. vm_compute in He. discriminate.
Qed.

Notation "'ex_step'" :=
  (step diag_svdvals sqrt_exact (0, 0) lead_project lead_project_back
     (L:=unit) None).
Notation "'ex_visit'" :=
  (visit diag_svdvals sqrt_exact (0, 0) lead_project lead_project_back).

Lemma rank_growth_exits_normally_witness :
  exists r,
    grow_rank 2 [Fin 5; Fin 4; Fin 3; Fin 1] tt = Done r tt /\
    (forall n, loop_fuel 2 [Fin 5; Fin 4; Fin 3; Fin 1] <= n ->
       rank_loop n 2 [Fin 5; Fin 4; Fin 3; Fin 1] = Some r) /\
    2 <= r <= max 2 (length [Fin 5; Fin 4; Fin 3; Fin 1]) /\
    flt (compute_explained_ratio r [Fin 5; Fin 4; Fin 3; Fin 1])
      explained_ratio_threshold = false /\
    (length [Fin 5; Fin 4; Fin 3; Fin 1] <= 2 -> r = 2).
Proof.
  exact (rank_growth_exits_normally 2 [Fin 5; Fin 4; Fin 3; Fin 1] tt).
Defined.

Lemma rank_starts_at_two_and_never_decreases_witness :
  (exists g, galore_group (param_groups (ex_opt ex_group2 (zeros 4 3)))
             = Some g /\
     param_ranks (ex_opt ex_group2 (zeros 4 3))
     = replicate (length (params g)) 2) /\
  (exists r',
     param_ranks (final (ex_step (ex_grads diag_grad3)
                           (ex_opt ex_group (zeros 4 3)))) !! 0 = Some r' /\
     2 <= r').
Proof.
  pose proof (rank_starts_at_two_and_never_decreases diag_svdvals sqrt_exact
                (0, 0) lead_project lead_project_back) as (Hinit & Hstep & _).
  split.
  - apply (Hinit [([7; 8], Some ex_args)] (Fin (1 # 100))
             (Fin (9 # 10), Fin (999 # 1000)) (Fin (1 # 1000000)) fzero true
             (fun _ => zeros 4 3)).
    reflexivity.
  - apply Hstep. reflexivity.
Defined.

(** C3 (counterexample): the parameter 7 has one row and two columns and
    the gradient of one row.  The step goes through; it leaves the rank 2 in
    the table and moment buffers of one row and two columns, smaller than
    the rank along the rank dimension, the rows. *)
Lemma buffers_smaller_than_rank :
  exists o' a b,
    ex_step (ex_grads row_grad) (ex_opt ex_group (zeros 1 2)) = Done None o' /\
    param_ranks o' !! 0 = Some 2 /\
    st_exp_avg (state o' !!! 7) = Some a /\
    st_exp_avg_sq (state o' !!! 7) = Some b /\
    nrows a = 1 /\ ncols a = 2 /\ nrows b = 1 /\ ncols b = 2 /\
    rank_dim row_grad = 0 /\
    size a (rank_dim row_grad) < 2 /\ size b (rank_dim row_grad) < 2 /\
    min (nrows a) (ncols a) < 2 /\ min (nrows b) (ncols b) < 2.
Proof.
  eexists _, _, _. split; [vm_compute; reflexivity|].
  split; [vm_compute; reflexivity|].
  split; [vm_compute; reflexivity|].
  split; [vm_compute; reflexivity|].
  vm_compute. repeat split; lia.
Qed.

Lemma buffers_cover_rank_once_allocated_witness :
  let o := final (ex_step (ex_grads diag_grad2) (ex_opt ex_group (zeros 4 3))) in
  let o' := final (ex_visit (ex_grads diag_grad3) ex_group 0 7 o) in
  exists a b,
    st_exp_avg (state o !!! 7) = Some a /\
    st_exp_avg_sq (state o !!! 7) = Some b /\
    exists r pr t low mem a' b',
      param_ranks o' !! 0 = Some r /\
      p_rank pr = r /\ lead_project pr diag_grad3 t = Some (low, mem) /\
      st_exp_avg (state o' !!! 7) = Some a' /\
      st_exp_avg_sq (state o' !!! 7) = Some b' /\
      r <= size a' (rank_dim low) /\ r <= size b' (rank_dim low) /\
      no_smaller a a' /\ no_smaller b b'.
Proof.
  intros o o'.
  pose proof (buffers_cover_rank_once_allocated diag_svdvals sqrt_exact
                (0, 0) lead_project lead_project_back) as (Hgrown & _ & _).
  eexists _, _.
  split; [vm_compute; reflexivity|].
  split; [vm_compute; reflexivity|].
  apply (Hgrown (ex_grads diag_grad3) ex_group ex_args 0 7 diag_grad3 o o').
  - reflexivity.
  - reflexivity.
  - vm_compute. reflexivity.
  - vm_compute. reflexivity.
  - split; reflexivity.
  - vm_compute. reflexivity.
Defined.

Lemma growth_pads_with_zeros_witness :
  exists a' b',
    reconcile ex_group [3] 0 diag_grad3 ex_pstate =
      Done tt (mkPState (Some 1) None (Some a') (Some b')) /\
    padded (rank_dim diag_grad3) 3 ex_buffer a' /\
    padded (rank_dim diag_grad3) 3 ex_buffer b'.
Proof.
  apply (growth_pads_with_zeros ex_group ex_args [3] 0 diag_grad3 ex_pstate
           ex_buffer ex_buffer 3).
  - reflexivity.
  - reflexivity.
  - reflexivity.
  - unfold rect. simpl. repeat constructor.
  - unfold rect. simpl. repeat constructor.
  - split; reflexivity.
  - reflexivity.
  - vm_compute. lia.
Defined.

Lemma reconcile_idempotent_witness :
  reconcile ex_group [2] 0 diag_grad3 ex_pstate = Done tt ex_pstate /\
  (reconcile ex_group [2] 0 diag_grad3;; reconcile ex_group [2] 0 diag_grad3)
    ex_pstate = reconcile ex_group [2] 0 diag_grad3 ex_pstate.
Proof.
  apply (reconcile_idempotent ex_group [2] 0 diag_grad3 ex_pstate ex_buffer
           ex_buffer 2).
  - reflexivity.
  - reflexivity.
  - reflexivity.
  - vm_compute. lia.
Defined.



Lemma sparse_gradient_raises_witness :
  exists e o',
    ex_step (ex_grads diag_grad3) (ex_opt ex_group2 (zeros 4 3))
    = Raised e o' /\
    state o' !!! 8 = state (ex_opt ex_group2 (zeros 4 3)) !!! 8 /\
    weights o' 8 = weights (ex_opt ex_group2 (zeros 4 3)) 8.
Proof.
  apply (sparse_gradient_raises diag_svdvals sqrt_exact (0, 0) lead_project
           lead_project_back None (ex_grads diag_grad3)
           (ex_opt ex_group2 (zeros 4 3)) ex_group2 8 [7] [] [] []).
  - reflexivity.
  - reflexivity.
  - reflexivity.
Defined.



Lemma step_size_formula_witness :
  step_size sqrt_exact ex_group 3 tt =
    Done (fdiv (fmul (Fin (1 # 100))
                  (fsqrt sqrt_exact
                     (fsub fone (fpow (Fin (999 # 1000)) 3))))
            (fsub fone (fpow (Fin (9 # 10)) 3))) tt.
Proof.
  apply (step_size_formula sqrt_exact ex_group 3 tt).
  - reflexivity.
  - reflexivity.
  - reflexivity.
  - lia.
Defined.

Lemma absent_gradient_skipped_witness :
  let o := ex_opt ex_group2 (zeros 4 3) in
  let o' := final (ex_step (ex_grads_second diag_grad3) o) in
  param_ranks o' !! 0 = param_ranks o !! 0 /\
  current_explained_ratios o' !! 0 = current_explained_ratios o !! 0.
Proof.
  intros o o'.
  apply (absent_gradient_skipped diag_svdvals sqrt_exact (0, 0) lead_project
           lead_project_back (L:=unit) None (ex_grads_second diag_grad3) o 7
           eq_refl)
    with (g := ex_group2).
  - intros g' Hin _. simpl in Hin. apply list_elem_of_singleton in Hin.
    exact Hin.
  - reflexivity.
Defined.

Lemma rank_is_least_witness :
  2 <= 3 /\
  flt (compute_explained_ratio 3 [Fin 5; Fin 4; Fin 3; Fin 1])
    explained_ratio_threshold = false /\
  forall j, 2 <= j < 3 ->
    flt (compute_explained_ratio j [Fin 5; Fin 4; Fin 3; Fin 1])
      explained_ratio_threshold = true.
Proof.
  apply (rank_is_least 2 [Fin 5; Fin 4; Fin 3; Fin 1] tt tt 3).
  reflexivity.
Defined.

Lemma short_spectrum_keeps_rank_witness :
  compute_explained_ratio 2 [Fin 5] = NaN /\
  grow_rank 2 [Fin 5] tt = Done 2 tt.
Proof.
  apply (short_spectrum_keeps_rank 2 [Fin 5] tt). simpl. lia.
Defined.




Lemma step_counter_counts_visits_witness :
  let o := ex_opt ex_group (zeros 4 3) in
  st_step (state (final (ex_visit (ex_grads diag_grad3) ex_group 0 7 o)) !!! 7)
  = Some (S (counter (state o !!! 7))).
Proof.
  intros o.
  apply (proj1 (step_counter_counts_visits diag_svdvals sqrt_exact (0, 0)
                  lead_project lead_project_back)
           (ex_grads diag_grad3) ex_group 0 7 diag_grad3 o).
  - reflexivity.
  - vm_compute. reflexivity.
Defined.

Lemma projector_follows_rank_witness :
  let o := ex_opt ex_group (zeros 4 3) in
  let o' := final (ex_visit (ex_grads diag_grad3) ex_group 0 7 o) in
  exists r pr1 low mem,
    param_ranks o' !! 0 = Some r /\
    p_rank pr1 = r /\
    (forall pr0, st_projector (state o !!! 7) = Some pr0 -> p_rank pr0 = r ->
       pr1 = pr0) /\
    ((forall pr0, st_projector (state o !!! 7) = Some pr0 -> p_rank pr0 ≠ r) ->
     pr1 = mkProjector r (update_proj_gap ex_args) (scale ex_args)
             (proj_type ex_args) (0, 0)) /\
    lead_project pr1 diag_grad3 (counter (state o !!! 7)) = Some (low, mem) /\
    st_projector (state o' !!! 7) =
      Some (mkProjector r (p_gap pr1) (p_scale pr1) (p_type pr1) mem).
Proof.
  intros o o'.
  apply (projector_follows_rank diag_svdvals sqrt_exact (0, 0) lead_project
           lead_project_back (ex_grads diag_grad3) ex_group ex_args 0 7
           diag_grad3 o o').
  - reflexivity.
  - reflexivity.
  - vm_compute. reflexivity.
Defined.

Lemma rank_index_out_of_range_witness :
  ex_visit (ex_grads_second diag_grad3) ex_group2 1 8
    (ex_opt_two (zeros 4 3))
  = Raised IndexError
      (with_dict 8 (started (state (ex_opt_two (zeros 4 3)) !!! 8))
         (ex_opt_two (zeros 4 3))).
Proof.
  apply (rank_index_out_of_range diag_svdvals sqrt_exact (0, 0) lead_project
           lead_project_back (ex_grads_second diag_grad3) ex_group2 ex_args 1
           8 diag_grad3 (ex_opt_two (zeros 4 3))).
  - reflexivity.
  - reflexivity.
  - simpl. lia.
Defined.

Lemma failed_update_is_not_undone_witness :
  let o := final (ex_step (ex_grads small_grad)
                    (mkOptimizer [ex_plain] [] [] ∅ (fun _ => zeros 2 2))) in
  exists a b o',
    st_exp_avg (state o !!! 7) = Some a /\
    st_exp_avg_sq (state o !!! 7) = Some b /\
    ex_visit (ex_grads tall_grad) ex_plain 0 7 o = Raised ShapeMismatch o' /\
    st_step (state o' !!! 7) = Some (S (counter (state o !!! 7))) /\
    st_exp_avg (state o' !!! 7)
      = Some (tmap (fun x => fmul x (betas ex_plain).1) a) /\
    st_exp_avg_sq (state o' !!! 7) = Some b /\
    st_projector (state o' !!! 7) = st_projector (state o !!! 7) /\
    weights o' = weights o /\
    param_ranks o' = param_ranks o /\
    current_explained_ratios o' = current_explained_ratios o.
Proof.
  intros o. eexists _, _.
  assert (forall A (P Q : A -> Prop) (R S : Prop),
            R -> S -> (R -> S -> exists x, P x /\ Q x) ->
            exists x, R /\ S /\ P x /\ Q x) as Hex.
  { intros A P Q R S HR HS H. destruct (H HR HS) as (x & ? & ?). eauto. }
  apply Hex.
  - vm_compute. reflexivity.
  - vm_compute. reflexivity.
  - intros Ha Hb.
    apply (failed_update_is_not_undone diag_svdvals sqrt_exact (0, 0)
             lead_project lead_project_back (ex_grads tall_grad) ex_plain 0 7
             tall_grad o _ _ eq_refl eq_refl Ha Hb).
    left. vm_compute. split; lia.
Defined.

Lemma plain_visit_is_adamw_witness :
  let o := mkOptimizer [ex_plain] [] [] ∅ (fun _ => zeros 2 2) in
  exists ss o' a' b',
    step_size sqrt_exact ex_plain (S (counter (state o !!! 7))) tt
      = Done ss tt /\
    ex_visit (ex_grads small_grad) ex_plain 0 7 o = Done tt o' /\
    st_exp_avg (state o' !!! 7) = Some a' /\
    st_exp_avg_sq (state o' !!! 7) = Some b' /\
    rect a' /\ rect b' /\ rect (weights o' 7) /\
    same_shape small_grad a' /\ same_shape small_grad b' /\
    same_shape small_grad (weights o' 7) /\
    forall r c x m v w,
      entry small_grad r c = Some x ->
      entry (zeros_like small_grad) r c = Some m ->
      entry (zeros_like small_grad) r c = Some v ->
      entry (weights o 7) r c = Some w ->
      let m' := fadd (fmul m (betas ex_plain).1)
                  (fmul (fsub fone (betas ex_plain).1) x) in
      let v' := fadd (fmul v (betas ex_plain).2)
                  (fmul (fsub fone (betas ex_plain).2) (fmul x x)) in
      let w' := fadd w (fmul (fneg ss)
                          (fdiv m' (fadd (fsqrt sqrt_exact v')
                                      (eps ex_plain)))) in
      entry a' r c = Some m' /\
      entry b' r c = Some v' /\
      entry (weights o' 7) r c =
        Some (if flt fzero (weight_decay ex_plain)
              then fadd w' (fmul (fmul (fneg (lr ex_plain))
                                    (weight_decay ex_plain)) w')
              else w').
Proof.
  intros o. eexists.
  assert (forall (R : Prop) (P : Optimizer (nat * nat) -> Tensor -> Tensor ->
                                 Prop),
            R -> (R -> exists o' a' b', P o' a' b') ->
            exists o' a' b', R /\ P o' a' b') as Hex.
  { intros R P HR H. destruct (H HR) as (o' & a' & b' & ?). eauto. }
  apply Hex.
  - vm_compute. reflexivity.
  - intros Hss.
    apply (plain_visit_is_adamw diag_svdvals sqrt_exact (0, 0) lead_project
             lead_project_back (ex_grads small_grad) ex_plain 0 7 small_grad o
             (zeros_like small_grad) (zeros_like small_grad) _ eq_refl
             eq_refl).
    + right. split_and!; reflexivity.
    + unfold rect. simpl. repeat constructor.
    + unfold rect. simpl. repeat constructor.
    + unfold rect. simpl. repeat constructor.
    + unfold rect. simpl. repeat constructor.
    + split; reflexivity.
    + split; reflexivity.
    + split; reflexivity.
    + exact Hss.
Defined.

Lemma sqrt_exact_zero q : (q == 0)%Q -> (sqrt_exact q == 0)%Q.
Proof.
  unfold Qeq, sqrt_exact. simpl. intros H.
  assert (Qnum q = 0%Z) as -> by lia. reflexivity.
Qed.

Lemma zeros_entries_zero r0 c0 r c x :
  entry (zeros r0 c0) r c = Some x -> exists q, x = Fin q /\ (q == 0)%Q.
Proof.
  unfold entry, zeros. simpl. intros H.
  destruct (replicate r0 _ !! r) as [row|] eqn:Hrow; [|done]. simpl in H.
  apply lookup_replicate in Hrow as [-> _].
  apply lookup_replicate in H as [-> _]. by exists 0%Q.
Qed.

Lemma zero_gradient_only_decays_witness :
  let o := mkOptimizer [ex_plain] [] [] ∅
             (fun _ => mkTensor 1 [[Fin 1]]) in
  exists o',
    ex_visit (ex_grads (zeros 1 1)) ex_plain 0 7 o = Done tt o' /\
    forall r c w,
      entry (weights o 7) r c = Some (Fin w) ->
      exists q, entry (weights o' 7) r c = Some (Fin q) /\
        ((0 < 1 # 10)%Q -> (q == w - (1 # 100) * (1 # 10) * w)%Q) /\
        (((1 # 10) <= 0)%Q -> (q == w)%Q).
Proof.
  intros o.
  apply (zero_gradient_only_decays diag_svdvals sqrt_exact (0, 0)
           lead_project lead_project_back (ex_grads (zeros 1 1)) ex_plain 0 7
           (zeros 1 1) o (1 # 100) (9 # 10) (999 # 1000) (1 # 1000000)
           (1 # 10) (10 # 3100)).
  - reflexivity.
  - reflexivity.
  - reflexivity.
  - unfold rect. simpl. repeat constructor.
  - unfold rect. simpl. repeat constructor.
  - split; reflexivity.
  - apply zeros_entries_zero.
  - reflexivity.
  - reflexivity.
  - reflexivity.
  - reflexivity.
  - reflexivity.
  - apply sqrt_exact_zero.
  - vm_compute. reflexivity.
Defined.

Lemma moment_buffers_share_shape_witness :
  all_coherent (M:=nat * nat)
    (final (ex_step (ex_grads diag_grad3) (ex_opt ex_group (zeros 4 3)))).
Proof.
  apply (proj2 (moment_buffers_share_shape diag_svdvals sqrt_exact (0, 0)
                  lead_project lead_project_back)).
  intros q a Ha. vm_compute in Ha. discriminate.
Defined.

Lemma step_without_gradients_is_noop_witness :
  ex_step (fun _ => GNone) (ex_opt ex_group2 (zeros 4 3))
  = Done None (ex_opt ex_group2 (zeros 4 3)).
Proof.
  apply (step_without_gradients_is_noop diag_svdvals sqrt_exact (0, 0)
           lead_project lead_project_back).
  reflexivity.
Defined.
